(** * A virtual file-system shell over an archive: model and verification

    The program ([main.py]) builds an in-memory tree of [Node] objects from
    the member names of an archive and runs the shell commands [ls], [cd],
    [mv], [tree] and [exit] on it.

    Python objects are mutable and shared by reference ([_mv_cmd] re-attaches
    the very node object it detached), so the nodes live in a store: a node is
    its index in a list of records, and a children dictionary maps a name to
    such an index.  Strings are sequences of code points below 256. *)

From Stdlib Require Import Ascii String.
From stdpp Require Import base option list sets strings sorting.

(* [naive_solver] clears hypotheses by name and warns when one is gone. *)
#[local] Set Warnings "-clear-no-such-hyp".

Local Open Scope string_scope.
Local Open Scope list_scope.
Local Open Scope nat_scope.

(** ** Python string built-ins used by the program *)

Module PyStr.

(** [s.lstrip(c)] for a one-character set [c]. *)
Fixpoint lstrip (c : ascii) (s : string) : string :=
  match s with
  | EmptyString => EmptyString
  | String a s' => if Ascii.eqb a c then lstrip c s' else s
  end.

(** [s.rstrip(c)]. *)
Fixpoint rstrip (c : ascii) (s : string) : string :=
  match s with
  | EmptyString => EmptyString
  | String a s' =>
      match rstrip c s' with
      | EmptyString => if Ascii.eqb a c then EmptyString else String a EmptyString
      | r => String a r
      end
  end.

(** [s.strip(c)]. *)
Definition strip (c : ascii) (s : string) : string := lstrip c (rstrip c s).

(** [s.split(c)]: never the empty list; [n] separators give [n + 1] pieces. *)
Fixpoint split (c : ascii) (s : string) : list string :=
  match s with
  | EmptyString => [EmptyString]
  | String a s' =>
      if Ascii.eqb a c then EmptyString :: split c s'
      else match split c s' with
           | w :: ws => String a w :: ws
           | [] => [String a EmptyString]
           end
  end.

(** [sep.join(l)]. *)
Fixpoint join (sep : string) (l : list string) : string :=
  match l with
  | [] => EmptyString
  | [x] => x
  | x :: l' => x +:+ sep +:+ join sep l'
  end.

(** The line feed, [chr(10)]. *)
Definition nl : string := String (ascii_of_nat 10) EmptyString.

(** [a or b] on strings: the empty string is false. *)
Definition or_else (a b : string) : string :=
  match a with EmptyString => b | _ => a end.

(** [str.isspace] on a code point below 256. *)
Definition isspace (a : ascii) : bool :=
  let n := nat_of_ascii a in
  (((9 <=? n) && (n <=? 13)) || ((28 <=? n) && (n <=? 32))
   || (n =? 133) || (n =? 160))%nat.

Fixpoint lstrip_ws (s : string) : string :=
  match s with
  | EmptyString => EmptyString
  | String a s' => if isspace a then lstrip_ws s' else s
  end.

Fixpoint rstrip_ws (s : string) : string :=
  match s with
  | EmptyString => EmptyString
  | String a s' =>
      match rstrip_ws s' with
      | EmptyString => if isspace a then EmptyString else String a EmptyString
      | r => String a r
      end
  end.

(** [s.strip()]. *)
Definition strip_ws (s : string) : string := lstrip_ws (rstrip_ws s).

(** [l[:-1]] and [l[-1]] on a non-empty list. *)
Definition but_last {A} (l : list A) : list A := removelast l.
Definition last_of (l : list string) : string := List.last l EmptyString.

(** [sorted(l, key=...)]: a stable sort that, like Python's, compares with
    [<] only; [lt a b] says that the key of [a] is below the key of [b].  An
    element goes in front of the first one that is not below it. *)
Section Sorted.
Context {A : Type} (lt : A -> A -> bool).

Fixpoint insert_sorted (x : A) (l : list A) : list A :=
  match l with
  | [] => [x]
  | y :: l' => if lt y x then y :: insert_sorted x l' else x :: l
  end.

Fixpoint sorted (l : list A) : list A :=
  match l with
  | [] => []
  | x :: l' => insert_sorted x (sorted l')
  end.
End Sorted.

End PyStr.

Import PyStr.

(** ** Dictionaries keyed by strings, in insertion order *)

Module Dict.

Definition t (V : Type) : Type := list (string * V).

Section Ops.
Context {V : Type}.

(** [d.get(k)] *)
Fixpoint get (k : string) (d : t V) : option V :=
  match d with
  | [] => None
  | (k', v) :: d' => if decide (k' = k) then Some v else get k d'
  end.

(** [d[k] = v]: an existing key keeps its place. *)
Fixpoint set (k : string) (v : V) (d : t V) : t V :=
  match d with
  | [] => [(k, v)]
  | (k', v') :: d' =>
      if decide (k' = k) then (k, v) :: d' else (k', v') :: set k v d'
  end.

(** [d.pop(k)]: [None] stands for [KeyError]. *)
Fixpoint pop (k : string) (d : t V) : option (t V) :=
  match d with
  | [] => None
  | (k', v) :: d' =>
      if decide (k' = k) then Some d'
      else match pop k d' with
           | Some r => Some ((k', v) :: r)
           | None => None
           end
  end.

Definition keys (d : t V) : list string := d.*1.
Definition values (d : t V) : list V := d.*2.
End Ops.

End Dict.

(** ** Nodes and the store *)

(** [class Node]: the children dictionary holds references. *)
Record Node := mkNode {
  name : string;
  is_dir : bool;
  children : Dict.t nat
}.

Abbreviation Heap := (list Node).

Definition set_children (n : Node) (d : Dict.t nat) : Node :=
  mkNode (name n) (is_dir n) d.

Definition set_name (n : Node) (s : string) : Node :=
  mkNode s (is_dir n) (children n).

(** [Node.add_child]: [self.children[child_node.name] = child_node] *)
Definition add_child (h : Heap) (self child_node : nat) : Heap :=
  match h !! self, h !! child_node with
  | Some s, Some c =>
      <[self := set_children s (Dict.set (name c) child_node (children s))]> h
  | _, _ => h
  end.

(** [Node.get_child] *)
Definition get_child (h : Heap) (self : nat) (nm : string) : option nat :=
  h !! self ≫= λ s, Dict.get nm (children s).

(** [Node.has_children] *)
Definition has_children (h : Heap) (self : nat) : bool :=
  match h !! self with
  | Some s => match children s with [] => false | _ => true end
  | None => false
  end.

(** The root is allocated first and [self.root_node] is never reassigned. *)
Definition root_node : nat := 0.

(** ** [App._build_tree] *)

(** An archive member: [member.name] and [member.isdir()]. *)
Definition member : Type := string * bool.

(** The inner loop [for idx, part in enumerate(parts)], from index [idx] on;
    [len] is [len(parts)] of the whole list. *)
Fixpoint build_parts (h : Heap) (current_node : nat) (idx len : nat)
    (parts : list string) (member_isdir : bool) : Heap :=
  match parts with
  | [] => h
  | part :: rest =>
      let is_dir := negb (idx =? len - 1)%nat || member_isdir in
      let h1 :=
        match get_child h current_node part with
        | None => add_child (h ++ [mkNode part is_dir []]) current_node (length h)
        | Some _ => h
        end in
      match get_child h1 current_node part with
      | Some c => build_parts h1 c (S idx) len rest member_isdir
      | None => h1
      end
  end.

Definition member_parts (m : member) : list string :=
  split "/" (strip "/" m.1).

Definition build_member (h : Heap) (m : member) : Heap :=
  let parts := member_parts m in
  build_parts h root_node 0 (length parts) parts m.2.

Definition _build_tree (members : list member) : Heap :=
  fold_left build_member members [mkNode "/" true []].

(** ** [App._find_node_by_path] *)

Fixpoint find_from (h : Heap) (current_node : nat) (parts : list string)
    : option nat :=
  match parts with
  | [] => Some current_node
  | part :: rest =>
      if decide (part = EmptyString) then find_from h current_node rest
      else match get_child h current_node part with
           | Some c => find_from h c rest
           | None => None
           end
  end.

Definition _find_node_by_path (h : Heap) (parts : list string) : option nat :=
  find_from h root_node parts.

(** ** [App._dfs_tree] *)

(** The attributes [n.name] and [n.is_dir] of the node a reference leads to. *)
Definition node_name (h : Heap) (n : nat) : string :=
  default EmptyString (name <$> h !! n).

Definition node_is_dir (h : Heap) (n : nat) : bool :=
  default false (is_dir <$> h !! n).

(** The sort key [(not n.is_dir, n.name)]; Python orders tuples
    lexicographically, [False] below [True] and strings by code point. *)
Definition sort_key (h : Heap) (n : nat) : bool * string :=
  (negb (node_is_dir h n), node_name h n).

Definition key_lt (k1 k2 : bool * string) : bool :=
  if Bool.eqb k1.1 k2.1 then String.ltb k1.2 k2.2 else negb k1.1.

(** The loop [for idx, child in enumerate(sorted_children)], from index [idx]
    on; [len] is [len(sorted_children)] and [rec] the recursive call. *)
Fixpoint dfs_children (rec : nat -> string -> option string) (prefix : string)
    (idx len : nat) (l : list nat) (tree_str : string) : option string :=
  match l with
  | [] => Some tree_str
  | child :: l' =>
      let child_prefix :=
        prefix +:+ (if (idx <? len - 1)%nat then "|  " else "   ") in
      match rec child child_prefix with
      | Some s => dfs_children rec prefix (S idx) len l' (tree_str +:+ s)
      | None => None
      end
  end.

(** [depth] is the number of nested calls the interpreter still allows;
    [None] stands for [RecursionError]. *)
Fixpoint _dfs_tree (depth : nat) (h : Heap) (node : nat) (prefix : string)
    : option string :=
  match depth with
  | 0 => None
  | S depth' =>
      match h !! node with
      | None => None
      | Some nd =>
          let tree_str :=
            prefix +:+ name nd +:+ (if is_dir nd then "/" +:+ nl else nl) in
          let sorted_children :=
            sorted (λ a b, key_lt (sort_key h a) (sort_key h b))
                   (Dict.values (children nd)) in
          dfs_children (_dfs_tree depth' h) prefix 0 (length sorted_children)
                       sorted_children tree_str
      end
  end.

(** ** The command engine *)

(** [class App]: the store that holds the tree of [self.root_node], and
    [self.cur_dir]. *)
Record App := mkApp {
  heap : Heap;
  cur_dir : string
}.

Definition set_heap (self : App) (h : Heap) : App := mkApp h (cur_dir self).
Definition set_cur_dir (self : App) (d : string) : App := mkApp (heap self) d.

(** The exceptions the handlers can raise. *)
Inductive exn :=
  | KeyError (key : string)
  | RecursionError.

(** How a handler ends: it returns a string, raises an [Exception], or
    raises [SystemExit] (which is not an [Exception]). *)
Inductive outcome :=
  | Return (res : string)
  | Raise (e : exn)
  | SystemExit.

Section Engine.

(** The number of nested [_dfs_tree] calls the interpreter's recursion limit
    leaves room for, and [str(e)] of the [RecursionError] it raises. *)
Variable max_depth : nat.
Variable recursion_msg : string.

(** [str(e)]; the only key [_mv_cmd] can miss is the empty one, whose
    [repr] is two quotes. *)
Definition exn_str (e : exn) : string :=
  match e with
  | KeyError key => "'" +:+ key +:+ "'"
  | RecursionError => recursion_msg
  end.

Definition path_parts (path : string) : list string :=
  split "/" (strip "/" path).

Definition _ls_cmd (self : App) (arg : list string) : outcome * App :=
  let path := match arg with [] => cur_dir self | a :: _ => a end in
  match _find_node_by_path (heap self) (path_parts path) with
  | Some node =>
      if has_children (heap self) node then
        match heap self !! node with
        | Some nd =>
            (Return (join nl (sorted String.ltb (Dict.keys (children nd)))),
             self)
        | None => (Return EmptyString, self)
        end
      else (Return EmptyString, self)
  | None => (Return EmptyString, self)
  end.

Definition _cd_cmd (self : App) (arg : list string) : outcome * App :=
  match arg with
  | [] => (Return EmptyString, self)
  | a :: _ =>
      let target_dir := strip "/" a in
      if decide (target_dir = "..") then
        if decide (cur_dir self ≠ "/") then
          (Return EmptyString,
           set_cur_dir self
             (or_else (join "/" (but_last (split "/" (rstrip "/" (cur_dir self)))))
                      "/"))
        else (Return EmptyString, self)
      else if decide (target_dir = "/") then
        (Return EmptyString, set_cur_dir self "/")
      else
        let new_dir :=
          strip "/" (rstrip "/" (cur_dir self) +:+ "/" +:+ target_dir) in
        let not_found := (Return ("Directory not found: " +:+ target_dir), self) in
        match _find_node_by_path (heap self) (split "/" new_dir) with
        | Some target_node =>
            match heap self !! target_node with
            | Some nd =>
                if is_dir nd then
                  (Return EmptyString, set_cur_dir self ("/" +:+ new_dir))
                else not_found
            | None => not_found
            end
        | None => not_found
        end
  end.

(** [src_parent.children.pop(key)] *)
Definition pop_child (h : Heap) (parent : nat) (key : string) : option Heap :=
  match h !! parent with
  | Some p =>
      match Dict.pop key (children p) with
      | Some d => Some (<[parent := set_children p d]> h)
      | None => None
      end
  | None => None
  end.

(** [src_node.name = nm] *)
Definition rename (h : Heap) (node : nat) (nm : string) : Heap :=
  match h !! node with
  | Some nd => <[node := set_name nd nm]> h
  | None => h
  end.

Definition _mv_cmd (self : App) (arg : list string) : outcome * App :=
  match arg with
  | a0 :: a1 :: _ =>
      let src := strip "/" a0 in
      let dest := strip "/" a1 in
      let src_node := _find_node_by_path (heap self) (split "/" src) in
      let dest_node := _find_node_by_path (heap self) (split "/" dest) in
      match src_node, dest_node with
      | None, _ => (Return (a0 +:+ " not found."), self)
      | Some _, Some _ =>
          (Return ("Destination " +:+ a1 +:+ " already exists."), self)
      | Some src_node, None =>
          let src_parts := split "/" src in
          match _find_node_by_path (heap self) (but_last src_parts) with
          | None =>
              (Return ("Source parent not found: "
                       +:+ join "/" (but_last src_parts)), self)
          | Some src_parent =>
              match pop_child (heap self) src_parent (last_of src_parts) with
              | None => (Raise (KeyError (last_of src_parts)), self)
              | Some h1 =>
                  let dest_parts := split "/" dest in
                  match _find_node_by_path h1 (but_last dest_parts) with
                  | None =>
                      (Return ("Destination parent not found: "
                               +:+ join "/" (but_last dest_parts)),
                       set_heap self h1)
                  | Some dest_parent =>
                      let h2 := rename h1 src_node (last_of dest_parts) in
                      let h3 := add_child h2 dest_parent src_node in
                      (Return (a0 +:+ " moved to " +:+ a1 +:+ "."),
                       set_heap self h3)
                  end
              end
          end
      end
  | _ => (Return "Usage: mv <source> <destination>", self)
  end.

Definition _tree_cmd (self : App) (arg : list string) : outcome * App :=
  let path := match arg with [] => cur_dir self | a :: _ => a end in
  match _find_node_by_path (heap self) (path_parts path) with
  | Some node =>
      match _dfs_tree max_depth (heap self) node EmptyString with
      | Some s => (Return s, self)
      | None => (Raise RecursionError, self)
      end
  | None => (Return "Directory not found.", self)
  end.

(** [exit(0)] raises [SystemExit]. *)
Definition _exit_cmd (self : App) (arg : list string) : outcome * App :=
  (SystemExit, self).

(** The dictionary [commands] of [_cmd_exec]. *)
Definition commands (cmd : string)
    : option (App -> list string -> outcome * App) :=
  if decide (cmd = "ls") then Some _ls_cmd
  else if decide (cmd = "cd") then Some _cd_cmd
  else if decide (cmd = "mv") then Some _mv_cmd
  else if decide (cmd = "tree") then Some _tree_cmd
  else if decide (cmd = "exit") then Some _exit_cmd
  else None.

Definition _cmd_exec (self : App) (lines : list string) : outcome * App :=
  match lines with
  | [] => (Return EmptyString, self)
  | l0 :: args =>
      if decide (strip_ws l0 = EmptyString) then (Return EmptyString, self)
      else
        let cmd := strip_ws l0 in
        match commands cmd with
        | Some handler =>
            match handler self args with
            | (Return res, self') => (Return (or_else res EmptyString), self')
            | (Raise e, self') => (Return ("Error: " +:+ exn_str e), self')
            | (SystemExit, self') => (SystemExit, self')
            end
        | None => (Return ("Unknown command: " +:+ cmd), self)
        end
  end.

End Engine.

(** [App.__init__]: the tree is built and [cur_dir] starts at the root. *)
Definition init (members : list member) : App :=
  mkApp (_build_tree members) "/".

(** The archive of [test.py], as [tarfile] reads it back: a plain [TarInfo]
    is a regular file, also when its name ends in a slash. *)
Definition test_members : list member :=
  [("dir1/", false); ("dir1/file1.txt", false); ("dir1/file2.txt", false);
   ("dir2/", false); ("dir2/file3.txt", false); ("file4.txt", false)].

(** ** [App._run_startup_script] and [App._enter_handler] *)

Module PyWords.

(** Whether a string begins with a character that is not white space. *)
Definition starts_word (s : string) : bool :=
  match s with
  | String b _ => negb (isspace b)
  | EmptyString => false
  end.

(** [s.split()]: the maximal runs of characters that are not white space,
    in order; never an empty piece. *)
Fixpoint split_ws (s : string) : list string :=
  match s with
  | EmptyString => []
  | String a s' =>
      if isspace a then split_ws s'
      else if starts_word s' then
        match split_ws s' with
        | w :: ws => String a w :: ws
        | [] => [String a EmptyString]
        end
      else String a EmptyString :: split_ws s'
  end.

End PyWords.

Import PyWords.

(** How a run of commands ends: the program goes on, or [exit] has raised
    [SystemExit], which nothing catches. *)
Inductive run :=
  | Continues (self : App)
  | Exits (self : App).

Section Session.

Variable max_depth : nat.
Variable recursion_msg : string.

(** The loop [for line in script: self._cmd_exec(line.strip().split())];
    what [_cmd_exec] returns is dropped. *)
Fixpoint run_script (self : App) (script : list string) : run :=
  match script with
  | [] => Continues self
  | line :: rest =>
      match _cmd_exec max_depth recursion_msg self (split_ws (strip_ws line)) with
      | (SystemExit, self') => Exits self'
      | (_, self') => run_script self' rest
      end
  end.

(** [script] is the lines of the file of [startup_script_path], or [None]
    when no path is configured or no file is there. *)
Definition _run_startup_script (self : App) (script : option (list string))
    : run :=
  match script with
  | Some lines => run_script self lines
  | None => Continues self
  end.

(** [text] is what the text field shows, that is its content without the line
    feed a Tk text widget always ends in: [get("1.0", END)] is [text] and that
    line feed, and [insert(END, s)] appends [s] to [text]. *)
Definition _enter_handler (self : App) (text : string) : run * string :=
  let src_line := text +:+ nl in
  let lines := split (ascii_of_nat 10) (strip_ws src_line) in
  let last_line := last_of lines in
  let command := strip_ws (last_of (split ">" last_line)) in
  match command with
  | EmptyString => (Continues self, text)
  | _ =>
      let text1 := text +:+ " <- Executing: " +:+ command +:+ nl in
      match _cmd_exec max_depth recursion_msg self (split_ws command) with
      | (Return result, self') =>
          let text2 :=
            match result with
            | EmptyString => text1
            | _ => text1 +:+ result +:+ nl
            end in
          (Continues self', text2 +:+ cur_dir self' +:+ " > ")
      | (_, self') => (Exits self', text1)
      end
  end.

End Session.

(** ** Vocabulary of the statements *)

(** The names under which a node's children are filed. *)
Definition child_names (h : Heap) (node : nat) : list string :=
  match h !! node with
  | Some nd => Dict.keys (children nd)
  | None => []
  end.

(** [x] is not above [y] in the order that [lt] decides. *)
Definition not_above {A} (lt : A → A → bool) (x y : A) : Prop := lt y x = false.

(** [parent] files [child] under [key]. *)
Definition edge (h : Heap) (parent : nat) (key : string) (child : nat) : Prop :=
  ∃ nd, h !! parent = Some nd ∧ (key, child) ∈ children nd.

(** Following the keys [p] from node [n], one [get_child] per key (the empty
    key included, which [_find_node_by_path] skips). *)
Fixpoint walk (h : Heap) (n : nat) (p : list string) : option nat :=
  match p with
  | [] => Some n
  | k :: p' => get_child h n k ≫= λ c, walk h c p'
  end.

(** The shape the store has while nothing went wrong: every dictionary has
    each key once, a child is a node of the store and is filed under its own
    name, no node is filed twice, and the root is filed nowhere. *)
Record WF (h : Heap) : Prop := mkWF {
  wf_root : is_Some (h !! root_node);
  wf_keys : ∀ n nd, h !! n = Some nd → NoDup (Dict.keys (children nd));
  wf_child : ∀ p k c, edge h p k c → ∃ cd, h !! c = Some cd ∧ name cd = k;
  wf_parent : ∀ p1 k1 p2 k2 c, edge h p1 k1 c → edge h p2 k2 c → p1 = p2 ∧ k1 = k2;
  wf_root_top : ∀ p k, ¬ edge h p k root_node
}.

(** What it means for the nodes below the root to form a tree: a child is
    filed under its name, siblings have different names, a node has one
    parent, and one path leads from the root to it. *)
Record is_tree (h : Heap) : Prop := mkTree {
  tree_name_key : ∀ p k c, edge h p k c → name <$> h !! c = Some k;
  tree_siblings : ∀ p k1 c1 k2 c2,
    edge h p k1 c1 → edge h p k2 c2 →
    name <$> h !! c1 = name <$> h !! c2 → c1 = c2;
  tree_one_parent : ∀ p1 k1 p2 k2 c, edge h p1 k1 c → edge h p2 k2 c → p1 = p2;
  tree_one_path : ∀ n p q,
    walk h root_node p = Some n → walk h root_node q = Some n → p = q
}.

(** A source argument that is not the root: something is left of it once the
    slashes around it are stripped. *)
Definition non_root_source (arg : list string) : Prop :=
  match arg with
  | a0 :: _ => strip "/" a0 ≠ EmptyString
  | [] => True
  end.

(** A session of [mv] commands, one argument list each. *)
Definition run_mvs (self : App) (moves : list (list string)) : App :=
  fold_left (λ s arg, (_mv_cmd s arg).2) moves self.

(** The node found at the end of the keys [p] from the root, as its name and
    directory flag. *)
Definition node_at (h : Heap) (p : list string) : option (string * bool) :=
  walk h root_node p ≫= λ n, h !! n ≫= λ nd, Some (name nd, is_dir nd).

(** The flag that member [m] gives to a node it creates at [p]: none when
    its path does not go through [p], true for an intermediate part, and its
    own flag for the last part. *)
Definition flag_of (m : member) (p : list string) : option bool :=
  if decide (p `prefix_of` member_parts m)
  then Some (negb (bool_decide (p = member_parts m)) || m.2)
  else None.

(** The flag of the first member whose path goes through [p]. *)
Fixpoint first_flag (ms : list member) (p : list string) : option bool :=
  match ms with
  | [] => None
  | m :: ms' =>
      match flag_of m p with
      | Some b => Some b
      | None => first_flag ms' p
      end
  end.

(** The node at [p] is created as a file: the first member whose path goes
    through [p] ends there and is no directory. *)
Definition kept_as_file (ms : list member) (p : list string) : bool :=
  bool_decide (first_flag ms p = Some false).

(** Some member has a path that goes on beyond [p]. *)
Definition extended_in (ms : list member) (p : list string) : bool :=
  existsb (λ m, bool_decide (p `prefix_of` member_parts m
                             ∧ p ≠ member_parts m)) ms.

(** No path is both created as a file and gone beyond by a member. *)
Definition files_stay_leaves (ms : list member) : bool :=
  forallb (λ m, negb (kept_as_file ms (member_parts m)
                      && extended_in ms (member_parts m))) ms.

(** Members agree on the flags: whenever the path of one goes through the
    whole path of another, the two paths are equal and so are the flags, or
    the shorter one is a directory. *)
Definition agree (m1 m2 : member) : bool :=
  if decide (member_parts m1 `prefix_of` member_parts m2) then
    if decide (member_parts m1 = member_parts m2) then Bool.eqb m1.2 m2.2
    else m1.2
  else true.

Definition consistent (ms : list member) : bool :=
  forallb (λ m1, forallb (agree m1) ms) ms.

(** The first step of [build_parts] when the part is new: a node is
    allocated at the end of the store and filed in the current node. *)
Definition grow (h : Heap) (cur : nat) (part : string) (d : bool) : Heap :=
  add_child (h ++ [mkNode part d []]) cur (length h).

(** [h'] continues [h]: no node is lost or changes its name or flag, and
    every walk of [h] is a walk of [h']. *)
Record extends (h h' : Heap) : Prop := mkExtends {
  ext_length : length h ≤ length h';
  ext_same : ∀ m nd, h !! m = Some nd →
    ∃ nd', h' !! m = Some nd' ∧ name nd' = name nd ∧ is_dir nd' = is_dir nd;
  ext_walk : ∀ n p x, walk h n p = Some x → walk h' n p = Some x
}.

(** What [build_parts] adds to [h] when it starts at the node of the keys
    [pc] with the parts [parts] and the flag [d] of the member: the walks that
    are new follow [parts] below [pc] and end in nodes flagged as the code
    says; the whole path is there afterwards; the new nodes can be reached. *)
Definition grown (h h' : Heap) (pc parts : list string) (d : bool) : Prop :=
  (∀ p x, walk h' root_node p = Some x → walk h root_node p = None →
     ∃ r nd, r ≠ [] ∧ p = pc ++ r ∧ r `prefix_of` parts
             ∧ h' !! x = Some nd
             ∧ is_dir nd = negb (bool_decide (r = parts)) || d)
  ∧ (∀ r, r `prefix_of` parts → is_Some (walk h' root_node (pc ++ r)))
  ∧ (∀ m, length h ≤ m → m < length h' → ∃ p, walk h' root_node p = Some m).

(** The store after the members [ms] have been put in: it has the shape
    [WF], the root is the directory named by a slash, every node is reached
    from the root, the node at the keys [p] has the flag of the first member
    that goes through [p], and the path of every member is there. *)
Record built (ms : list member) (h : Heap) : Prop := mkBuilt {
  built_wf : WF h;
  built_root : ∃ nd, h !! root_node = Some nd ∧ name nd = "/" ∧ is_dir nd = true;
  built_reach : ∀ n, n < length h → ∃ p, walk h root_node p = Some n;
  built_flag : ∀ p x nd,
    p ≠ [] → walk h root_node p = Some x → h !! x = Some nd →
    first_flag ms p = Some (is_dir nd);
  built_cover : ∀ m r,
    m ∈ ms → r `prefix_of` member_parts m → is_Some (walk h root_node r)
}.

(** The order of the listing of [tree]: a directory comes before a file, and
    within each kind the names ascend. *)
Definition tree_order (h : Heap) (a b : nat) : Prop :=
  (node_is_dir h a = true ∧ node_is_dir h b = false)
  ∨ (node_is_dir h a = node_is_dir h b
     ∧ (node_name h a ≤ node_name h b)%string).



(** Whether the character [c] occurs in [s]. *)
Fixpoint mem_char (c : ascii) (s : string) : bool :=
  match s with
  | EmptyString => false
  | String a s' => Ascii.eqb a c || mem_char c s'
  end.

(** Whether [s] begins with the character [c]. *)
Definition starts_with (c : ascii) (s : string) : bool :=
  match s with
  | String a _ => Ascii.eqb a c
  | EmptyString => false
  end.

(** Whether every character of [s] is white space. *)
Fixpoint blank (s : string) : bool :=
  match s with
  | EmptyString => true
  | String a s' => isspace a && blank s'
  end.

(** Whether no character of [s] is white space. *)
Fixpoint solid (s : string) : bool :=
  match s with
  | EmptyString => true
  | String a s' => negb (isspace a) && solid s'
  end.

(** The state a run of commands ends in. *)
Definition end_state (r : run) : App :=
  match r with
  | Continues self => self
  | Exits self => self
  end.

(** A line that asks [mv] to move the root. *)
Definition moves_root (line : string) : Prop :=
  ∃ a0 rest, split_ws line = "mv" :: a0 :: rest ∧ strip "/" a0 = EmptyString.

(** A line whose first word is [exit]. *)
Definition exit_line (line : string) : Prop :=
  head (split_ws line) = Some "exit".

(** Every node but the root has a name without a slash. *)
Definition plain_names (h : Heap) : Prop :=
  ∀ n nd, h !! n = Some nd → n ≠ root_node → mem_char "/" (name nd) = false.

(** * Properties *)

(** ** The string built-ins *)

Section StripLemmas.
Variable c : ascii.

Lemma lstrip_idem s : lstrip c (lstrip c s) = lstrip c s.
Proof.
  induction s as [|a s IH]; simpl; [done|].
  destruct (Ascii.eqb a c) eqn:E; [done|]. simpl. by rewrite E.
Qed.

Lemma rstrip_cons a s :
  rstrip c (String a s) =
    match rstrip c s with
    | EmptyString => if Ascii.eqb a c then EmptyString else String a EmptyString
    | r => String a r
    end.
Proof. done. Qed.

Lemma rstrip_idem s : rstrip c (rstrip c s) = rstrip c s.
Proof.
  induction s as [|a s IH]; [done|].
  rewrite rstrip_cons.
  destruct (rstrip c s) as [|b r] eqn:Er.
  - destruct (Ascii.eqb a c) eqn:E; [done|]. simpl. by rewrite E.
  - rewrite rstrip_cons, IH. done.
Qed.

Lemma rstrip_lstrip s : rstrip c (lstrip c s) = lstrip c (rstrip c s).
Proof.
  induction s as [|a s IH]; [done|].
  rewrite rstrip_cons. simpl lstrip at 1.
  destruct (Ascii.eqb a c) eqn:E.
  - rewrite IH. destruct (rstrip c s) as [|b r] eqn:Er; simpl; by rewrite ?E.
  - rewrite rstrip_cons.
    destruct (rstrip c s) as [|b r] eqn:Er; simpl; by rewrite E.
Qed.

Lemma strip_idem s : strip c (strip c s) = strip c s.
Proof.
  unfold strip. by rewrite rstrip_lstrip, rstrip_idem, lstrip_idem.
Qed.

Lemma rstrip_strip s : rstrip c (strip c s) = strip c s.
Proof. unfold strip. by rewrite rstrip_lstrip, rstrip_idem. Qed.

Lemma split_nonempty s : split c s ≠ [].
Proof.
  destruct s as [|a s]; simpl; [done|].
  destruct (Ascii.eqb a c); [done|]. by destruct (split c s).
Qed.

(** A string that [rstrip] leaves alone does not end in the separator, so
    its last piece is not empty. *)
Lemma last_split_rstrip s :
  rstrip c s = s → s ≠ EmptyString → last_of (split c s) ≠ EmptyString.
Proof.
  unfold last_of.
  induction s as [|a s IH]; [done|]. intros Hr _.
  rewrite rstrip_cons in Hr.
  destruct (rstrip c s) as [|b r] eqn:Er.
  - destruct (Ascii.eqb a c) eqn:E; [done|].
    injection Hr as <-. simpl. by rewrite E.
  - injection Hr as Hs. specialize (IH Hs). rewrite <- Hs in IH.
    specialize (IH ltac:(done)). rewrite Hs in IH.
    simpl. pose proof (split_nonempty s) as Hne.
    destruct (Ascii.eqb a c).
    + destruct (split c s); done.
    + destruct (split c s) as [|w [|w' ws]]; done.
Qed.

Lemma last_split_strip s :
  strip c s ≠ EmptyString → last_of (split c (strip c s)) ≠ EmptyString.
Proof. apply last_split_rstrip, rstrip_strip. Qed.

(** No stripped string is the separator itself. *)
Lemma lstrip_head s a r : lstrip c s = String a r → a ≠ c.
Proof.
  induction s as [|b s IH]; simpl; [done|].
  destruct (Ascii.eqb_spec b c) as [->|Hne]; [done|]. by intros [= <- _].
Qed.

Lemma strip_not_sep s : strip c s ≠ String c EmptyString.
Proof. intros H. by apply lstrip_head in H. Qed.
End StripLemmas.

Lemma but_last_last (l : list string) :
  l ≠ [] → l = but_last l ++ [last_of l].
Proof. intros H. by apply app_removelast_last. Qed.

(** ** [sorted] *)

Section SortedLemmas.
Context {A : Type} (lt : A → A → bool).
Hypothesis lt_asym : ∀ x y, lt x y = true → lt y x = false.

Lemma insert_sorted_perm x l : insert_sorted lt x l ≡ₚ x :: l.
Proof.
  induction l as [|y l IH]; simpl; [done|].
  destruct (lt y x); [|done]. rewrite IH. apply Permutation_swap.
Qed.

Lemma sorted_perm l : sorted lt l ≡ₚ l.
Proof.
  induction l as [|x l IH]; simpl; [done|].
  by rewrite insert_sorted_perm, IH.
Qed.

Lemma insert_sorted_hd x y l :
  lt y x = true → HdRel (not_above lt) y l → HdRel (not_above lt) y (insert_sorted lt x l).
Proof.
  intros Hyx Hl. destruct l as [|z l]; simpl.
  - constructor. by apply lt_asym.
  - destruct (lt z x).
    + constructor. by inversion Hl.
    + constructor. by apply lt_asym.
Qed.

Lemma insert_sorted_Sorted x l :
  Sorted (not_above lt) l → Sorted (not_above lt) (insert_sorted lt x l).
Proof.
  induction 1 as [|y l Hl IH Hy]; simpl.
  - by repeat constructor.
  - destruct (lt y x) eqn:E.
    + constructor; [done|]. by apply insert_sorted_hd.
    + constructor; [by constructor|]. by constructor.
Qed.

Lemma sorted_Sorted l : Sorted (not_above lt) (sorted lt l).
Proof.
  induction l as [|x l IH]; simpl; [constructor|].
  by apply insert_sorted_Sorted.
Qed.

Lemma sorted_length l : length (sorted lt l) = length l.
Proof. by rewrite sorted_perm. Qed.
End SortedLemmas.

Lemma Sorted_weaken {A} (R1 R2 : relation A) (l : list A) :
  (∀ x y, R1 x y → R2 x y) → Sorted R1 l → Sorted R2 l.
Proof.
  intros HR. induction 1 as [|x l Hl IH Hx]; constructor; [done|].
  destruct Hx; constructor; auto.
Qed.

Lemma string_ltb_leb (x y : string) : String.ltb y x = negb (String.leb x y).
Proof.
  unfold String.ltb, String.leb. rewrite (String.compare_antisym x y).
  by destruct (String.compare y x).
Qed.

Lemma string_ltb_asym (x y : string) :
  String.ltb x y = true → String.ltb y x = false.
Proof.
  unfold String.ltb. rewrite (String.compare_antisym x y).
  by destruct (String.compare y x).
Qed.

Lemma not_above_string_le (x y : string) :
  not_above String.ltb x y ↔ (x ≤ y)%string.
Proof.
  unfold not_above, String.le. rewrite string_ltb_leb.
  destruct (String.leb x y); simpl; naive_solver.
Qed.

Lemma sorted_strings_le (l : list string) :
  StronglySorted String.le (sorted String.ltb l).
Proof.
  apply Sorted_StronglySorted; [apply _|].
  eapply Sorted_weaken; [|apply (sorted_Sorted String.ltb string_ltb_asym)].
  intros x y. apply not_above_string_le.
Qed.

(** ** [cd] *)

(** [cd] only ever looks at its argument with the leading and trailing
    slashes stripped. *)
Lemma cd_strips_argument (self : App) (a : string) (rest : list string) :
  _cd_cmd self (a :: rest) = _cd_cmd self (strip "/" a :: rest).
Proof. unfold _cd_cmd. by rewrite strip_idem. Qed.

Example cd_absolute_looking :
  let self := (_cd_cmd (init [("a/dir1", true); ("dir1", false)]) ["a"]).2 in
  cur_dir self = "/a"
  ∧ cur_dir (_cd_cmd self ["/dir1"]).2 = "/a/dir1"
  ∧ _cd_cmd self ["/dir1"] = _cd_cmd self ["dir1"].
Proof. vm_compute. done. Qed.

(** The checks of [test.py] on [cd]: on its archive [dir1] is no directory,
    and [cur_dir] stays at the root. *)
Example cd_test_archive :
  _cd_cmd (init test_members) ["dir1"]
    = (Return "Directory not found: dir1", init test_members)
  ∧ _cd_cmd (init test_members) ["nonexistent"]
    = (Return "Directory not found: nonexistent", init test_members).
Proof. vm_compute. done. Qed.

(** Into a directory and back. *)
Example cd_down_up :
  let self := (_cd_cmd (init [("dir1/", true); ("dir1/sub/", true)]) ["dir1"]).2 in
  cur_dir self = "/dir1"
  ∧ cur_dir (_cd_cmd self ["sub"]).2 = "/dir1/sub"
  ∧ cur_dir (_cd_cmd (_cd_cmd self ["sub"]).2 [".."]).2 = "/dir1"
  ∧ cur_dir (_cd_cmd self [".."]).2 = "/"
  ∧ cur_dir (_cd_cmd (_cd_cmd self [".."]).2 [".."]).2 = "/".
Proof. vm_compute. done. Qed.

(** The branch [elif target_dir == "/"] can never be taken. *)
Lemma cd_reset_branch_dead (a : string) : strip "/" a ≠ "/".
Proof. apply strip_not_sep. Qed.

(** C4: from a sub-directory, [cd /] returns the empty string and leaves
    [cur_dir] where it was: the argument is stripped to the empty string
    before it is compared with the slash. *)
Lemma cd_slash_from_subdir :
  let self := (_cd_cmd (init [("dir1", true)]) ["dir1"]).2 in
  cur_dir self = "/dir1"
  ∧ _cd_cmd self ["/"] = (Return EmptyString, self)
  ∧ cur_dir (_cd_cmd self ["/"]).2 ≠ "/".
Proof. vm_compute. done. Qed.

(** ** [ls] and [tree] resolve from the root *)

(** C5: with [cur_dir] at [/a], [ls b] and [tree b] show the [b] of the root
    (which holds [d]), not the [b] of [/a] (which holds [c]). *)
Lemma ls_tree_from_root :
  let self := (_cd_cmd (init [("a/b/c", false); ("b/d", false)]) ["a"]).2 in
  cur_dir self = "/a"
  ∧ (_ls_cmd self ["b"]).1 = Return "d"
  ∧ (_ls_cmd self ["a/b"]).1 = Return "c"
  ∧ (_tree_cmd 5 self ["b"]).1 = Return ("b/" +:+ nl +:+ "   d" +:+ nl).
Proof. vm_compute. done. Qed.

(** ** [ls] *)

(** C6: [ls] resolves its first argument, or [cur_dir] when it has none, from
    the root.  When the path resolves, the result is the names of the node's
    children joined by line feeds, in ascending order of the strings and
    nothing else (a permutation of the keys); with no children that is the
    empty string.  When it does not resolve the result is the empty string
    too.  The state is never changed. *)
Theorem ls_cmd_spec (self : App) (arg : list string) :
  let target := default (cur_dir self) (head arg) in
  match _find_node_by_path (heap self) (split "/" (strip "/" target)) with
  | Some node =>
      ∃ names,
        names ≡ₚ child_names (heap self) node
        ∧ StronglySorted String.le names
        ∧ _ls_cmd self arg = (Return (join nl names), self)
        ∧ (if decide (child_names (heap self) node = [])
           then _ls_cmd self arg = (Return EmptyString, self)
           else names ≠ [])
  | None => _ls_cmd self arg = (Return EmptyString, self)
  end.
Proof.
  intros target. unfold _ls_cmd, path_parts.
  replace (match arg with [] => cur_dir self | a :: _ => a end) with target
    by (by destruct arg).
  destruct (_find_node_by_path _ _) as [node|]; [|done].
  unfold child_names, has_children.
  destruct (heap self !! node) as [nd|] eqn:Hnd.
  - exists (sorted String.ltb (Dict.keys (children nd))). split_and!.
    + apply sorted_perm.
    + apply sorted_strings_le.
    + by destruct (children nd).
    + case_decide as Hk.
      * unfold Dict.keys in Hk. by apply fmap_nil_inv in Hk as ->.
      * intros Hs. apply Hk.
    pose proof (sorted_perm String.ltb (Dict.keys (children nd))) as HP.
    rewrite Hs in HP. by apply Permutation_nil in HP.
  - exists []. split_and!; try done. constructor.
Qed.

(** The first two checks of [test.py]. *)
Example ls_test_archive :
  (_ls_cmd (init test_members) []).1
    = Return ("dir1" +:+ nl +:+ "dir2" +:+ nl +:+ "file4.txt")
  ∧ (_ls_cmd (init test_members) ["dir1"]).1
    = Return ("file1.txt" +:+ nl +:+ "file2.txt")
  ∧ (_ls_cmd (init test_members) ["nowhere"]).1 = Return EmptyString.
Proof. vm_compute. done. Qed.

(** ** The dispatcher *)

Lemma or_else_empty (s : string) : or_else s EmptyString = s.
Proof. by destruct s. Qed.

(** The four tree commands end by returning or by an [Exception]. *)
Lemma handlers_return (max_depth : nat) (self : App) (arg : list string) :
  (_ls_cmd self arg).1 ≠ SystemExit
  ∧ (_cd_cmd self arg).1 ≠ SystemExit
  ∧ (_mv_cmd self arg).1 ≠ SystemExit
  ∧ (_tree_cmd max_depth self arg).1 ≠ SystemExit.
Proof.
  unfold _ls_cmd, _cd_cmd, _mv_cmd, _tree_cmd.
  split_and!; repeat case_match; done.
Qed.

(** C8: a dispatch with no token, or with a first token that is blank,
    returns the empty string and leaves the state alone; a first token that
    is none of the five command names returns the unknown-command message;
    for [ls], [cd], [mv] and [tree] the handler's string is returned, and an
    exception of the handler becomes the string [Error: ] followed by its
    message: none of these four ever leaves the dispatcher by an exception.
    Only [exit] ends the session, by [SystemExit]. *)
Theorem cmd_exec_dispatch (max_depth : nat) (recursion_msg : string)
    (self : App) (lines : list string) :
  let run := _cmd_exec max_depth recursion_msg self lines in
  match lines with
  | [] => run = (Return EmptyString, self)
  | l0 :: args =>
      let cmd := strip_ws l0 in
      if decide (cmd = EmptyString) then run = (Return EmptyString, self)
      else if decide (cmd = "exit") then run = (SystemExit, self)
      else
        match commands max_depth cmd with
        | Some handler =>
            (cmd ∈ ["ls"; "cd"; "mv"; "tree"])
            ∧ (match handler self args with
               | (Return res, self') => run = (Return res, self')
               | (Raise e, self') =>
                   run = (Return ("Error: " +:+ exn_str recursion_msg e), self')
               | (SystemExit, _) => False
               end)
        | None =>
            (cmd ∉ ["ls"; "cd"; "mv"; "tree"; "exit"])
            ∧ run = (Return ("Unknown command: " +:+ cmd), self)
        end
  end.
Proof.
  intros run. subst run. destruct lines as [|l0 args]; [done|].
  unfold _cmd_exec. cbv zeta.
  destruct (decide (strip_ws l0 = EmptyString)) as [|Hne]; [done|].
  set (cmd := strip_ws l0) in *. clearbody cmd.
  unfold commands.
  destruct (decide (cmd = "exit")) as [->|Hexit]; [done|].
  pose proof (handlers_return max_depth self args) as (Hls & Hcd & Hmv & Htree).
  destruct (decide (cmd = "ls")) as [->|?].
  { split; [set_solver|].
    destruct (_ls_cmd self args) as [[res|e|] self'];
      [by rewrite or_else_empty | done | done]. }
  destruct (decide (cmd = "cd")) as [->|?].
  { split; [set_solver|].
    destruct (_cd_cmd self args) as [[res|e|] self'];
      [by rewrite or_else_empty | done | done]. }
  destruct (decide (cmd = "mv")) as [->|?].
  { split; [set_solver|].
    destruct (_mv_cmd self args) as [[res|e|] self'];
      [by rewrite or_else_empty | done | done]. }
  destruct (decide (cmd = "tree")) as [->|?].
  { split; [set_solver|].
    destruct (_tree_cmd max_depth self args) as [[res|e|] self'];
      [by rewrite or_else_empty | done | done]. }
  destruct (decide (cmd = "exit")) as [->|?]; [done|].
  split; [|done]. rewrite !elem_of_cons, elem_of_nil. tauto.
Qed.

(** Both exceptions do occur, and both come back as strings. *)
Example cmd_exec_errors (recursion_msg : string) :
  (_cmd_exec 100 recursion_msg (init test_members) ["mv"; "/"; "x/y"]).1
    = Return "Error: ''"
  ∧ (let looped := (_mv_cmd (init [("/", true)]) ["/"; "x"]).2 in
     (_cmd_exec 100 recursion_msg looped ["tree"]).1
       = Return ("Error: " +:+ recursion_msg))
  ∧ (_cmd_exec 100 recursion_msg (init test_members) ["rm"; "x"]).1
    = Return "Unknown command: rm"
  ∧ (_cmd_exec 100 recursion_msg (init test_members) [" "; "ls"]).1
    = Return EmptyString.
Proof. vm_compute. done. Qed.

(** ** Dictionaries *)

Section DictLemmas.
Context {V : Type}.
Implicit Types (d : Dict.t V) (k : string) (v : V).

Lemma dict_get_elem k v d : Dict.get k d = Some v → (k, v) ∈ d.
Proof.
  induction d as [|[k' v'] d IH]; simpl; [done|].
  case_decide; [intros [= ->]; subst; left | right; auto].
Qed.

Lemma dict_get_None k d : Dict.get k d = None ↔ k ∉ Dict.keys d.
Proof.
  unfold Dict.keys. induction d as [|[k' v'] d IH]; simpl.
  - split; [intros _; apply not_elem_of_nil | done].
  - rewrite not_elem_of_cons. case_decide; naive_solver.
Qed.

Lemma dict_elem_get k v d : NoDup (Dict.keys d) → (k, v) ∈ d → Dict.get k d = Some v.
Proof.
  unfold Dict.keys. induction d as [|[k' v'] d IH]; simpl.
  - intros _ H. by apply elem_of_nil in H.
  - intros [Hk Hd]%NoDup_cons [[= -> ->]|Hin]%elem_of_cons.
    + by rewrite decide_True.
    + rewrite decide_False; [auto|]. intros ->. apply Hk.
      apply list_elem_of_fmap. by exists (k, v).
Qed.

Lemma dict_pop_get k d : is_Some (Dict.pop k d) ↔ is_Some (Dict.get k d).
Proof.
  induction d as [|[k' v'] d IH]; simpl.
  - by rewrite <- !not_eq_None_Some.
  - case_decide; [split; eauto|].
    destruct (Dict.pop k d); rewrite <- IH; split; intros [? ?]; eauto; done.
Qed.

Lemma dict_pop_elem k d d' k' v :
  NoDup (Dict.keys d) → Dict.pop k d = Some d' →
  (k', v) ∈ d' ↔ (k', v) ∈ d ∧ k' ≠ k.
Proof.
  unfold Dict.keys. revert d'. induction d as [|[k0 v0] d IH]; simpl; [done|].
  intros d' [Hk Hd]%NoDup_cons. case_decide as Hk0.
  - intros [= <-]. subst k0. rewrite elem_of_cons. split.
    + intros Hin. split; [by right|]. intros ->. apply Hk.
      apply list_elem_of_fmap. by exists (k, v).
    + intros [[[= -> ->]|Hin] Hne]; done.
  - destruct (Dict.pop k d) as [r|] eqn:Hp; [|done]. intros [= <-].
    rewrite !elem_of_cons, (IH r Hd eq_refl). naive_solver.
Qed.

Lemma dict_pop_keys k d d' :
  NoDup (Dict.keys d) → Dict.pop k d = Some d' → NoDup (Dict.keys d').
Proof.
  unfold Dict.keys. revert d'. induction d as [|[k0 v0] d IH]; simpl; [done|].
  intros d' [Hk Hd]%NoDup_cons. case_decide as Hk0.
  - by intros [= <-].
  - destruct (Dict.pop k d) as [r|] eqn:Hp; [|done]. intros [= <-].
    simpl. apply NoDup_cons. split; [|by apply IH].
    intros [[k1 v1] [Heq Hin]]%list_elem_of_fmap. simpl in Heq. subst k1.
    apply (dict_pop_elem k d r k0 v1 Hd Hp) in Hin as [Hin _].
    apply Hk. apply list_elem_of_fmap. by exists (k0, v1).
Qed.

Lemma dict_set_elem k v d k' v' :
  NoDup (Dict.keys d) →
  (k', v') ∈ Dict.set k v d ↔ (k' = k ∧ v' = v) ∨ (k' ≠ k ∧ (k', v') ∈ d).
Proof.
  unfold Dict.keys. induction d as [|[k0 v0] d IH]; simpl.
  - intros _. rewrite list_elem_of_singleton, elem_of_nil. naive_solver.
  - intros [Hk Hd]%NoDup_cons. case_decide as Hk0.
    + subst k0. rewrite !elem_of_cons. split.
      * intros [[= -> ->]|Hin]; [by left|]. right. split; [|by right].
        intros ->. apply Hk. apply list_elem_of_fmap. by exists (k, v').
      * intros [[-> ->]|[Hne [[= -> ->]|Hin]]]; [by left|done|by right].
    + rewrite !elem_of_cons, (IH Hd). naive_solver.
Qed.

Lemma dict_set_keys k v d : NoDup (Dict.keys d) → NoDup (Dict.keys (Dict.set k v d)).
Proof.
  unfold Dict.keys. induction d as [|[k0 v0] d IH]; simpl.
  - intros _. apply NoDup_singleton.
  - intros [Hk Hd]%NoDup_cons. case_decide as Hk0.
    + subst k0. simpl. by apply NoDup_cons.
    + simpl. apply NoDup_cons. split; [|auto].
      intros [[k1 v1] [Heq Hin]]%list_elem_of_fmap. simpl in Heq. subst k1.
      apply (dict_set_elem k v d k0 v1 Hd) in Hin as [[-> _]|[_ Hin]]; [done|].
      apply Hk. apply list_elem_of_fmap. by exists (k0, v1).
Qed.
End DictLemmas.

(** ** Edges and walks *)

Section Walks.
Implicit Types (h : Heap) (p q : list string).

Lemma get_child_edge h n k c : get_child h n k = Some c → edge h n k c.
Proof.
  unfold get_child, edge. destruct (h !! n) as [nd|]; simpl; [|done].
  intros H%dict_get_elem. eauto.
Qed.

Lemma edge_get_child h n k c : WF h → edge h n k c → get_child h n k = Some c.
Proof.
  intros Hwf (nd & Hn & Hin). unfold get_child. rewrite Hn. simpl.
  apply dict_elem_get; [|done]. by eapply wf_keys.
Qed.

Lemma walk_app h n p q : walk h n (p ++ q) = walk h n p ≫= λ m, walk h m q.
Proof.
  revert n. induction p as [|k p IH]; intros n; simpl; [done|].
  destruct (get_child h n k); simpl; auto.
Qed.

Lemma walk_snoc h n p k c :
  walk h n (p ++ [k]) = Some c ↔
  ∃ m, walk h n p = Some m ∧ get_child h m k = Some c.
Proof.
  rewrite walk_app. destruct (walk h n p) as [m|]; simpl.
  - destruct (get_child h m k) as [c'|] eqn:E; simpl; naive_solver.
  - naive_solver.
Qed.

Lemma find_from_walk h n parts :
  find_from h n parts = walk h n (filter (λ s, s ≠ EmptyString) parts).
Proof.
  revert n. induction parts as [|part rest IH]; intros n; simpl; [done|].
  case_decide as Hp.
  - rewrite filter_cons_False by naive_solver. apply IH.
  - rewrite filter_cons_True by done. simpl.
    destruct (get_child h n part); simpl; auto.
Qed.

Lemma find_from_snoc h n parts k :
  k ≠ EmptyString →
  find_from h n (parts ++ [k]) = find_from h n parts ≫= λ m, get_child h m k.
Proof.
  intros Hk. rewrite !find_from_walk, filter_app, walk_app.
  rewrite filter_cons_True by done. simpl.
  destruct (walk h n _) as [m|]; simpl; [|done].
  by destruct (get_child h m k).
Qed.

(** A walk stays inside the store. *)
Lemma walk_in_store h n p m :
  WF h → is_Some (h !! n) → walk h n p = Some m → is_Some (h !! m).
Proof.
  intros Hwf. revert n. induction p as [|k p IH]; intros n Hn; simpl.
  - by intros [= <-].
  - destruct (get_child h n k) as [c|] eqn:E; simpl; [|done].
    apply IH. apply get_child_edge, (wf_child h Hwf) in E as (cd & -> & _). eauto.
Qed.

(** Two walks that start at nodes without a parent and meet are one walk. *)
Lemma walk_unique h a b p q n :
  WF h →
  (∀ x k, ¬ edge h x k a) → (∀ x k, ¬ edge h x k b) →
  walk h a p = Some n → walk h b q = Some n → a = b ∧ p = q.
Proof.
  intros Hwf Ha Hb. revert n q.
  induction p as [|k p IH] using rev_ind; intros n q.
  - simpl. intros [= <-].
    destruct q as [|k' q _] using rev_ind; simpl; [by intros [= ->]|].
    intros (m & _ & E%get_child_edge)%walk_snoc. by destruct (Ha m k').
  - intros (m & Hp & E%get_child_edge)%walk_snoc.
    destruct q as [|k' q _] using rev_ind; simpl.
    + intros [= ->]. by destruct (Hb m k).
    + intros (m' & Hq & E'%get_child_edge)%walk_snoc.
      destruct (wf_parent h Hwf _ _ _ _ _ E E') as [-> ->].
      destruct (IH _ _ Hp Hq) as [-> ->]. done.
Qed.

Lemma WF_is_tree h : WF h → is_tree h.
Proof.
  intros Hwf. split.
  - intros p k c (cd & -> & <-)%(wf_child h Hwf). done.
  - intros p k1 c1 k2 c2 E1 E2.
    destruct (wf_child h Hwf _ _ _ E1) as (cd1 & -> & <-).
    destruct (wf_child h Hwf _ _ _ E2) as (cd2 & -> & <-).
    simpl. intros [= Hn].
    apply (edge_get_child _ _ _ _ Hwf) in E1, E2. congruence.
  - intros p1 k1 p2 k2 c E1 E2.
    by destruct (wf_parent h Hwf _ _ _ _ _ E1 E2).
  - intros n p q Hp Hq.
    by destruct (walk_unique h root_node root_node p q n Hwf
                   (wf_root_top h Hwf) (wf_root_top h Hwf) Hp Hq).
Qed.
End Walks.

(** ** Updates of the store *)

Section StoreUpdates.
Implicit Types (h : Heap) (nd : Node).

Lemma edge_insert h n nd' p k c :
  n < length h →
  edge (<[n := nd']> h) p k c ↔
  (p = n ∧ (k, c) ∈ children nd') ∨ (p ≠ n ∧ edge h p k c).
Proof.
  intros Hn. unfold edge. destruct (decide (p = n)) as [->|Hne].
  - rewrite list_lookup_insert_eq by done. naive_solver.
  - rewrite list_lookup_insert_ne by done. naive_solver.
Qed.

(** The store after [pop_child]: one edge less, the nodes as they were. *)
Lemma pop_child_shape h parent key h1 :
  WF h → pop_child h parent key = Some h1 →
  length h1 = length h
  ∧ (∀ p k c, edge h1 p k c ↔ edge h p k c ∧ ¬ (p = parent ∧ k = key))
  ∧ (∀ m, name <$> h1 !! m = name <$> h !! m)
  ∧ (∀ m nd1, h1 !! m = Some nd1 → NoDup (Dict.keys (children nd1))).
Proof.
  intros Hwf. unfold pop_child.
  destruct (h !! parent) as [pn|] eqn:Hp; [|done].
  destruct (Dict.pop key (children pn)) as [d|] eqn:Hpop; [|done].
  intros [= <-]. pose proof (lookup_lt_Some _ _ _ Hp) as Hlt.
  pose proof (wf_keys h Hwf _ _ Hp) as Hnd.
  split_and!.
  - apply length_insert.
  - intros p k c. rewrite edge_insert by done. simpl.
    rewrite (dict_pop_elem key (children pn) d k c Hnd Hpop).
    unfold edge. split.
    + intros [(-> & Hin & Hne)|(Hne & E)]; [|naive_solver].
      split; [eauto|naive_solver].
    + intros ((nd & Hl & Hin) & Hne). destruct (decide (p = parent)) as [->|]; [|naive_solver].
      left. rewrite Hp in Hl. injection Hl as <-. naive_solver.
  - intros m. destruct (decide (parent = m)) as [<-|Hne].
    + rewrite list_lookup_insert_eq by done. by rewrite Hp.
    + by rewrite list_lookup_insert_ne.
  - intros m nd1. destruct (decide (parent = m)) as [<-|Hne].
    + rewrite list_lookup_insert_eq by done. intros [= <-]. simpl.
      by eapply dict_pop_keys.
    + rewrite list_lookup_insert_ne by done. by apply wf_keys.
Qed.

Lemma pop_child_WF h parent key h1 :
  WF h → pop_child h parent key = Some h1 → WF h1.
Proof.
  intros Hwf Hpop.
  destruct (pop_child_shape h parent key h1 Hwf Hpop) as (Hlen & He & Hname & Hkeys).
  split.
  - apply lookup_lt_is_Some. rewrite Hlen. apply lookup_lt_is_Some, Hwf.
  - done.
  - intros p k c [E _]%He. destruct (wf_child h Hwf _ _ _ E) as (cd & Hc & Hk).
    specialize (Hname c). rewrite Hc in Hname. simpl in Hname.
    destruct (h1 !! c) as [cd1|]; simplify_eq/=. eauto.
  - intros p1 k1 p2 k2 c [E1 _]%He [E2 _]%He. by eapply wf_parent.
  - intros p k [E _]%He. by eapply wf_root_top.
Qed.

(** The store after the renaming and [add_child] that end a move. *)
Lemma attach_lookup h s nm dp cs dn m :
  h !! s = Some cs → h !! dp = Some dn →
  add_child (rename h s nm) dp s !! m =
    (λ nd, mkNode (if decide (m = s) then nm else name nd) (is_dir nd)
             (if decide (m = dp) then Dict.set nm s (children nd)
              else children nd)) <$> h !! m.
Proof.
  intros Hs Hdp. unfold rename, add_child. rewrite Hs.
  pose proof (lookup_lt_Some _ _ _ Hs) as Hslt.
  pose proof (lookup_lt_Some _ _ _ Hdp) as Hdlt.
  rewrite (list_lookup_insert_eq _ s) by done.
  assert (<[s:=set_name cs nm]> h !! dp
          = Some (if decide (dp = s) then set_name cs nm else dn)) as ->.
  { case_decide as Hd; [subst; by rewrite list_lookup_insert_eq|].
    by rewrite list_lookup_insert_ne. }
  simpl. destruct (decide (m = dp)) as [->|Hmd].
  - rewrite list_lookup_insert_eq by (by rewrite length_insert).
    rewrite Hdp. simpl.
    destruct (decide (dp = s)) as [->|?]; [|reflexivity].
    rewrite Hs in Hdp. injection Hdp as ->. reflexivity.
  - rewrite list_lookup_insert_ne by done.
    destruct (decide (m = s)) as [->|Hms].
    + rewrite list_lookup_insert_eq by done. rewrite Hs. simpl.
      rewrite ?decide_True, ?decide_False by done. reflexivity.
    + rewrite list_lookup_insert_ne by done.
      destruct (h !! m) as [[]|]; simpl; [|done].
      rewrite ?decide_False by done. reflexivity.
Qed.

Lemma attach_WF h s nm dp :
  WF h → is_Some (h !! s) → is_Some (h !! dp) → s ≠ root_node →
  (∀ p k, ¬ edge h p k s) →
  WF (add_child (rename h s nm) dp s).
Proof.
  intros Hwf [cs Hs] [dn Hdp] Hroot Hfree.
  pose proof (λ m, attach_lookup h s nm dp cs dn m Hs Hdp) as Hl.
  assert (Hedge : ∀ p k c, edge (add_child (rename h s nm) dp s) p k c →
            (p = dp ∧ k = nm ∧ c = s) ∨ edge h p k c).
  { intros p k c (nd & Hp & Hin). rewrite Hl in Hp.
    destruct (h !! p) as [pn|] eqn:Hpn; simplify_eq/=.
    case_decide as Hpd; [|right; by exists pn].
    subst p. apply dict_set_elem in Hin; [|by eapply wf_keys].
    destruct Hin as [[-> ->]|[_ Hin]]; [by left|right; by exists pn]. }
  split.
  - rewrite Hl. destruct (wf_root h Hwf) as [r ->]. by eexists.
  - intros n nd. rewrite Hl. destruct (h !! n) as [pn|] eqn:Hpn; [|done].
    intros [= <-]. simpl. pose proof (wf_keys h Hwf _ _ Hpn).
    case_decide; [by apply dict_set_keys|done].
  - intros p k c [(-> & -> & ->)|E]%Hedge.
    + rewrite Hl, Hs. simpl. eexists. split; [done|]. simpl. by rewrite decide_True.
    + destruct (wf_child h Hwf _ _ _ E) as (cd & Hc & Hk).
      rewrite Hl, Hc. simpl. eexists. split; [done|]. simpl.
      rewrite decide_False; [done|]. intros ->. by eapply Hfree.
  - intros p1 k1 p2 k2 c E1%Hedge E2%Hedge.
    destruct E1 as [(? & ? & ?)|E1], E2 as [(? & ? & ?)|E2]; subst.
    + done.
    + by destruct (Hfree _ _ E2).
    + by destruct (Hfree _ _ E1).
    + by eapply wf_parent.
  - intros p k [(-> & -> & Hs')|E]%Hedge; [done|]. by eapply wf_root_top.
Qed.
End StoreUpdates.

(** ** [mv] *)

Section Move.
Implicit Types (h : Heap) (self : App).

(** The node of a source that is not the root is filed in the node of the
    path without its last part, under that last part. *)
Lemma find_parent_child h a s :
  strip "/" a ≠ EmptyString →
  _find_node_by_path h (split "/" (strip "/" a)) = Some s →
  ∃ sp, _find_node_by_path h (but_last (split "/" (strip "/" a))) = Some sp
        ∧ get_child h sp (last_of (split "/" (strip "/" a))) = Some s.
Proof.
  intros Hne. unfold _find_node_by_path.
  rewrite (but_last_last (split "/" (strip "/" a))) at 1
    by apply split_nonempty.
  rewrite find_from_snoc by by apply last_split_strip.
  destruct (find_from h root_node _) as [sp|]; simpl; [eauto|done].
Qed.

(** Taking an edge away opens no new way through the store. *)
Lemma pop_child_walk h parent key h1 n p m :
  WF h → pop_child h parent key = Some h1 →
  walk h1 n p = Some m → walk h n p = Some m.
Proof.
  intros Hwf Hpop.
  destruct (pop_child_shape h parent key h1 Hwf Hpop) as (_ & He & _).
  revert n. induction p as [|k p IH]; intros n; simpl; [done|].
  destruct (get_child h1 n k) as [c|] eqn:E; simpl; [|done].
  apply get_child_edge, He in E as [E _].
  rewrite (edge_get_child _ _ _ _ Hwf E). simpl. apply IH.
Qed.

Lemma pop_child_find h parent key h1 parts :
  WF h → pop_child h parent key = Some h1 →
  _find_node_by_path h parts = None → _find_node_by_path h1 parts = None.
Proof.
  intros Hwf Hpop. unfold _find_node_by_path. rewrite !find_from_walk.
  intros Hn. destruct (walk h1 _ _) as [m|] eqn:E; [|done].
  apply (pop_child_walk h parent key h1 _ _ _ Hwf Hpop) in E. congruence.
Qed.

Lemma find_in_store h parts n :
  WF h → _find_node_by_path h parts = Some n → is_Some (h !! n).
Proof.
  intros Hwf. unfold _find_node_by_path. rewrite find_from_walk.
  apply walk_in_store; [done|]. apply Hwf.
Qed.

(** Popping the key of a child detaches that child altogether. *)
Lemma pop_child_detached h parent key s h1 :
  WF h → get_child h parent key = Some s → pop_child h parent key = Some h1 →
  ∀ p k, ¬ edge h1 p k s.
Proof.
  intros Hwf Hs Hpop p k.
  destruct (pop_child_shape h parent key h1 Hwf Hpop) as (_ & He & _).
  intros [E Hne]%He. apply get_child_edge in Hs.
  destruct (wf_parent h Hwf _ _ _ _ _ E Hs). naive_solver.
Qed.

Lemma pop_child_is_Some h parent key s :
  get_child h parent key = Some s → is_Some (pop_child h parent key).
Proof.
  unfold get_child, pop_child. destruct (h !! parent) as [pn|]; simpl; [|done].
  intros Hg. destruct (proj2 (dict_pop_get key (children pn))) as [d ->]; eauto.
Qed.

(** Whatever a move of something other than the root does, the store keeps
    its shape. *)
Lemma mv_cmd_WF self arg :
  WF (heap self) → non_root_source arg → WF (heap (_mv_cmd self arg).2).
Proof.
  intros Hwf Hsrc. unfold _mv_cmd.
  destruct arg as [|a0 [|a1 rest]]; [done..|]. simpl in Hsrc.
  destruct (_find_node_by_path (heap self) (split "/" (strip "/" a0)))
    as [s|] eqn:Hs; [|done].
  destruct (_find_node_by_path (heap self) (split "/" (strip "/" a1)));
    [done|].
  destruct (find_parent_child _ _ _ Hsrc Hs) as (sp & -> & Hc).
  destruct (pop_child (heap self) sp _) as [h1|] eqn:Hpop; [|done].
  pose proof (pop_child_WF _ _ _ _ Hwf Hpop) as Hwf1.
  destruct (_find_node_by_path h1 _) as [dp|] eqn:Hdp; [|done].
  simpl. apply attach_WF; [done| | | |].
  - destruct (pop_child_shape _ _ _ _ Hwf Hpop) as (Hlen & _).
    apply lookup_lt_is_Some. rewrite Hlen. apply lookup_lt_is_Some.
    by eapply find_in_store.
  - by eapply find_in_store.
  - intros ->. apply get_child_edge in Hc.
    exact (wf_root_top _ Hwf _ _ Hc).
  - exact (pop_child_detached _ _ _ _ _ Hwf Hc Hpop).
Qed.

Lemma run_mvs_WF self moves :
  WF (heap self) → Forall non_root_source moves →
  WF (heap (run_mvs self moves)).
Proof.
  intros Hwf Hall. revert self Hwf.
  induction Hall as [|arg moves Harg _ IH]; intros self Hwf; [done|].
  simpl. apply IH. by apply mv_cmd_WF.
Qed.
End Move.

(** ** [_build_tree] keeps the shape of the store *)

Section Grow.
Implicit Types (h : Heap).

Lemma grow_lookup h cur part d cn m :
  h !! cur = Some cn →
  grow h cur part d !! m =
    if decide (m = length h) then Some (mkNode part d [])
    else (λ nd, if decide (m = cur)
                then set_children nd (Dict.set part (length h) (children nd))
                else nd) <$> h !! m.
Proof.
  intros Hc. unfold grow, add_child.
  pose proof (lookup_lt_Some _ _ _ Hc) as Hlt.
  rewrite (lookup_app_l_Some _ _ _ _ Hc), list_lookup_middle by done. simpl.
  assert (cur < length (h ++ [mkNode part d []])) by (rewrite length_app; lia).
  destruct (decide (m = cur)) as [->|Hmc].
  - rewrite list_lookup_insert_eq by done.
    rewrite decide_False by lia. by rewrite Hc.
  - rewrite list_lookup_insert_ne by done.
    case_decide as Hm; [subst; by apply list_lookup_middle|].
    destruct (decide (m < length h)).
    + rewrite lookup_app_l by done. by destruct (h !! m).
    + rewrite !(lookup_ge_None_2 _ m); [done|lia|rewrite length_app; simpl; lia].
Qed.

Lemma grow_length h cur part d :
  is_Some (h !! cur) → length (grow h cur part d) = S (length h).
Proof.
  intros [cn Hc]. unfold grow, add_child.
  rewrite (lookup_app_l_Some _ _ _ _ Hc), list_lookup_middle by done.
  rewrite length_insert, length_app. simpl. lia.
Qed.

Lemma grow_edge h cur part d p k c :
  WF h → is_Some (h !! cur) → get_child h cur part = None →
  edge (grow h cur part d) p k c ↔
  (p = cur ∧ k = part ∧ c = length h) ∨ edge h p k c.
Proof.
  intros Hwf [cn Hc] Hnone. unfold edge.
  setoid_rewrite (grow_lookup h cur part d cn _ Hc).
  assert (Hfresh : part ∉ Dict.keys (children cn)).
  { apply dict_get_None. unfold get_child in Hnone. by rewrite Hc in Hnone. }
  pose proof (wf_keys h Hwf _ _ Hc) as Hnd.
  split.
  - intros (nd & Hp & Hin). case_decide as Hpl.
    { injection Hp as <-. by apply elem_of_nil in Hin. }
    destruct (h !! p) as [pn|] eqn:Hpn; simplify_eq/=.
    case_decide as Hpc; [|right; eauto]. subst p. simpl in Hin.
    assert (pn = cn) as -> by congruence.
    apply dict_set_elem in Hin as [[-> ->]|[_ Hin]]; [by left|right; eauto|done].
  - intros [(-> & -> & ->)|(nd & Hp & Hin)].
    + rewrite decide_False by (apply lookup_lt_Some in Hc; lia).
      rewrite Hc. simpl. rewrite decide_True by done. eexists. split; [done|].
      simpl. apply dict_set_elem; auto.
    + rewrite decide_False by (apply lookup_lt_Some in Hp; lia).
      rewrite Hp. simpl. case_decide as Hpc; [|eauto]. subst p.
      assert (nd = cn) as -> by congruence.
      eexists. split; [done|]. simpl. apply dict_set_elem; [done|].
      right. split; [|congruence]. intros ->. apply Hfresh.
      apply list_elem_of_fmap. by exists (part, c).
Qed.

Lemma grow_WF h cur part d :
  WF h → is_Some (h !! cur) → get_child h cur part = None →
  WF (grow h cur part d).
Proof.
  intros Hwf Hcur Hnone. pose proof Hcur as [cn Hc].
  pose proof (λ p k c, grow_edge h cur part d p k c Hwf Hcur Hnone) as He.
  pose proof (λ m, grow_lookup h cur part d cn m Hc) as Hl.
  assert (Hin : ∀ p k c, edge h p k c → c < length h).
  { intros p k c (cd & Hcd & _)%(wf_child h Hwf). by eapply lookup_lt_Some. }
  split.
  - rewrite Hl. destruct (wf_root h Hwf) as [r Hr].
    rewrite decide_False by (apply lookup_lt_Some in Hr; unfold root_node in *; lia).
    rewrite Hr. by eexists.
  - intros n nd. rewrite Hl. case_decide; [intros [= <-]; constructor|].
    destruct (h !! n) as [pn|] eqn:Hpn; [|done]. intros [= <-].
    pose proof (wf_keys h Hwf _ _ Hpn).
    case_decide; [by apply dict_set_keys|done].
  - intros p k c [(-> & -> & ->)|E]%He.
    + rewrite Hl, decide_True by done. eauto.
    + destruct (wf_child h Hwf _ _ _ E) as (cd & Hcd & Hk).
      rewrite Hl, decide_False by (apply lookup_lt_Some in Hcd; lia).
      rewrite Hcd. simpl. case_decide; eauto.
  - intros p1 k1 p2 k2 c E1%He E2%He.
    destruct E1 as [(? & ? & ?)|E1], E2 as [(? & ? & ?)|E2]; subst.
    + done.
    + apply Hin in E2. lia.
    + apply Hin in E1. lia.
    + by eapply wf_parent.
  - intros p k [(_ & _ & Hr)|E]%He.
    + destruct (wf_root h Hwf) as [r Hr'%lookup_lt_Some].
      unfold root_node in *. lia.
    + by eapply wf_root_top.
Qed.

Lemma grow_get_child h cur part d :
  WF h → is_Some (h !! cur) → get_child h cur part = None →
  get_child (grow h cur part d) cur part = Some (length h).
Proof.
  intros Hwf Hcur Hnone. apply edge_get_child; [by apply grow_WF|].
  apply grow_edge; auto.
Qed.

(** Names and flags stay; a walk of the old store is a walk of the new one;
    the only new walks end at the new node, over the new edge. *)
Lemma grow_same h cur part d m nd :
  is_Some (h !! cur) → h !! m = Some nd →
  ∃ nd', grow h cur part d !! m = Some nd'
         ∧ name nd' = name nd ∧ is_dir nd' = is_dir nd.
Proof.
  intros [cn Hc] Hm. rewrite (grow_lookup h cur part d cn m Hc).
  rewrite decide_False by (apply lookup_lt_Some in Hm; lia).
  rewrite Hm. simpl. case_decide; eauto.
Qed.

Lemma grow_walk h cur part d n p x :
  WF h → is_Some (h !! cur) → get_child h cur part = None →
  walk h n p = Some x → walk (grow h cur part d) n p = Some x.
Proof.
  intros Hwf Hcur Hnone. revert n. induction p as [|k p IH]; intros n; simpl; [done|].
  destruct (get_child h n k) as [c|] eqn:E; simpl; [|done].
  intros Hw. rewrite (edge_get_child (grow h cur part d) n k c).
  - simpl. by apply IH.
  - by apply grow_WF.
  - apply grow_edge; auto. right. by apply get_child_edge.
Qed.

Lemma grow_walk_inv h cur part d n p x :
  WF h → is_Some (h !! cur) → get_child h cur part = None →
  n < length h →
  walk (grow h cur part d) n p = Some x →
  walk h n p = Some x
  ∨ (x = length h ∧ ∃ p1, p = p1 ++ [part] ∧ walk h n p1 = Some cur).
Proof.
  intros Hwf Hcur Hnone. pose proof Hcur as [cn Hc].
  revert n. induction p as [|k p IH]; intros n Hn; simpl; [by left|].
  destruct (get_child (grow h cur part d) n k) as [c|] eqn:E; simpl; [|done].
  apply get_child_edge, grow_edge in E; [|done..].
  destruct E as [(-> & -> & ->)|E].
  - intros Hw. right. destruct p as [|k' p]; simpl in Hw.
    + injection Hw as <-. split; [done|]. by exists [].
    + unfold get_child in Hw.
      rewrite (grow_lookup h cur part d cn _ Hc), decide_True in Hw by done.
      done.
  - rewrite (edge_get_child _ _ _ _ Hwf E). simpl.
    destruct (wf_child h Hwf _ _ _ E) as (cd & Hcd%lookup_lt_Some & _).
    intros [Hw|(-> & p1 & -> & Hw)]%IH; [by left| |done].
    right. split; [done|]. exists (k :: p1). split; [done|]. simpl.
    by rewrite (edge_get_child _ _ _ _ Hwf E).
Qed.
End Grow.

Section BuildParts.
Implicit Types (h : Heap) (pc parts : list string).

Lemma extends_refl h : extends h h.
Proof. split; eauto. Qed.

Lemma extends_trans h1 h2 h3 : extends h1 h2 → extends h2 h3 → extends h1 h3.
Proof.
  intros [L1 S1 W1] [L2 S2 W2]. split.
  - lia.
  - intros m nd (nd2 & H2 & <- & <-)%S1.
    destruct (S2 _ _ H2) as (nd3 & H3 & <- & <-). eauto.
  - eauto.
Qed.

Lemma grow_extends h cur part d :
  WF h → is_Some (h !! cur) → get_child h cur part = None →
  extends h (grow h cur part d).
Proof.
  intros Hwf Hcur Hnone. split.
  - rewrite grow_length by done. lia.
  - intros m nd. by apply grow_same.
  - intros n p x. by apply grow_walk.
Qed.

Lemma grown_nil h pc d : is_Some (walk h root_node pc) → grown h h pc [] d.
Proof.
  intros Hpc. split_and!.
  - intros p x H1 H2. congruence.
  - intros r ->%prefix_nil_inv. by rewrite app_nil_r.
  - intros m ? ?. lia.
Qed.

(** One step of the loop, whether it found the part or made it. *)
Lemma grown_step h h1 h' pc part rest d :
  extends h h1 → extends h1 h' → is_Some (walk h root_node pc) →
  (∀ p x, walk h1 root_node p = Some x → walk h root_node p = None →
     p = pc ++ [part]
     ∧ ∃ nd, h1 !! x = Some nd
             ∧ is_dir nd = negb (bool_decide (rest = [])) || d) →
  (∀ m, length h ≤ m → m < length h1 →
     walk h1 root_node (pc ++ [part]) = Some m) →
  grown h1 h' (pc ++ [part]) rest d →
  grown h h' pc (part :: rest) d.
Proof.
  intros E1 E2 [cur Hpc] Hnew1 Hreach1 (Hnew & Hcov & Hreach). split_and!.
  - intros p x Hp' Hp. destruct (walk h1 root_node p) as [x1|] eqn:Hp1.
    + assert (x1 = x) as ->.
      { apply (ext_walk _ _ E2) in Hp1. congruence. }
      destruct (Hnew1 _ _ Hp1 Hp) as (-> & nd1 & Hx & Hd).
      destruct (ext_same _ _ E2 _ _ Hx) as (nd & Hx' & _ & Hd').
      exists [part], nd. split_and!; try done.
      * by apply prefix_cons, prefix_nil.
      * rewrite Hd', Hd. f_equal. f_equal. apply bool_decide_ext. naive_solver.
    + destruct (Hnew _ _ Hp' Hp1) as (r & nd & _ & -> & Hr & Hx & Hd).
      exists (part :: r), nd. split_and!; try done.
      * by rewrite <- app_assoc.
      * by apply prefix_cons.
      * rewrite Hd. f_equal. f_equal. apply bool_decide_ext. naive_solver.
  - intros [|k r] Hr.
    + rewrite app_nil_r. exists cur.
      by apply (ext_walk _ _ E2), (ext_walk _ _ E1).
    + pose proof (prefix_cons_inv_1 _ _ _ _ Hr) as ->.
      apply prefix_cons_inv_2 in Hr.
      specialize (Hcov r Hr). by rewrite <- app_assoc in Hcov.
  - intros m Hm Hm'. destruct (decide (m < length h1)) as [Hlt|Hge].
    + exists (pc ++ [part]). apply (ext_walk _ _ E2). by apply Hreach1.
    + apply Hreach; lia.
Qed.

Lemma build_parts_shape parts h cur idx len d pc :
  WF h → walk h root_node pc = Some cur →
  idx = length pc → len = length pc + length parts →
  let h' := build_parts h cur idx len parts d in
  WF h' ∧ extends h h' ∧ grown h h' pc parts d.
Proof.
  revert h cur idx pc.
  induction parts as [|part rest IH]; intros h cur idx pc Hwf Hpc Hidx Hlen.
  { simpl. split_and!; [done|apply extends_refl|].
    apply grown_nil. by eexists. }
  assert (Hcur : is_Some (h !! cur)).
  { eapply walk_in_store; [done| |done]. apply Hwf. }
  simpl. destruct (get_child h cur part) as [c|] eqn:E.
  - rewrite E.
    destruct (IH h c (S idx) (pc ++ [part])) as (Hwf' & Hext & Hg); try done.
    + apply walk_snoc. eauto.
    + rewrite length_app. simpl. lia.
    + rewrite length_app. simpl in *. lia.
    + split_and!; [done..|].
      eapply grown_step; [apply extends_refl|done|by eexists| | |done].
      * intros p x H1 H2. congruence.
      * intros m ? ?. lia.
  - set (flag := negb (idx =? len - 1)%nat || d).
    pose proof (grow_WF h cur part flag Hwf Hcur E) as Hwf1.
    pose proof (grow_extends h cur part flag Hwf Hcur E) as Hext1.
    pose proof (grow_get_child h cur part flag Hwf Hcur E) as Hget.
    fold (grow h cur part flag). rewrite Hget.
    assert (Hpc1 : walk (grow h cur part flag) root_node (pc ++ [part])
                   = Some (length h)).
    { apply walk_snoc. exists cur. split; [|done]. by apply (ext_walk _ _ Hext1). }
    destruct (IH (grow h cur part flag) (length h) (S idx) (pc ++ [part]))
      as (Hwf' & Hext & Hg); try done.
    + rewrite length_app. simpl. lia.
    + rewrite length_app. simpl in *. lia.
    + split_and!; [done|by eapply extends_trans|].
      eapply grown_step; [done|done|by eexists| | |done].
      * intros p x Hp1 Hp.
        destruct (grow_walk_inv h cur part flag root_node p x Hwf Hcur E)
          as [?|(-> & p1 & -> & Hp1')]; [|done|congruence|].
        { apply lookup_lt_is_Some, Hwf. }
        destruct (walk_unique h root_node root_node p1 pc cur Hwf) as [_ ->];
          [apply Hwf|apply Hwf|done|done|].
        split; [done|]. destruct Hcur as [cn Hcn].
        rewrite (grow_lookup h cur part flag cn _ Hcn), decide_True by done.
        eexists. split; [done|]. simpl. unfold flag. f_equal. f_equal.
        subst idx len. destruct rest as [|r rest]; simpl.
        -- apply Nat.eqb_eq. lia.
        -- apply Nat.eqb_neq. lia.
      * intros m Hm Hm'. rewrite grow_length in Hm' by done.
        assert (m = length h) as -> by lia. done.
Qed.

Lemma build_parts_WF parts h cur idx len d :
  WF h → is_Some (h !! cur) → WF (build_parts h cur idx len parts d).
Proof.
  revert h cur idx. induction parts as [|part rest IH]; intros h cur idx Hwf Hcur;
    [done|].
  simpl. destruct (get_child h cur part) as [c|] eqn:E.
  - rewrite E. apply IH; [done|].
    apply get_child_edge, (wf_child h Hwf) in E as (cd & -> & _). eauto.
  - fold (grow h cur part (negb (idx =? len - 1)%nat || d)).
    rewrite grow_get_child by done. apply IH; [by apply grow_WF|].
    apply lookup_lt_is_Some. rewrite grow_length by done. lia.
Qed.
End BuildParts.

(** ** What [_build_tree] builds *)

Section BuildTree.
Implicit Types (h : Heap) (ms : list member) (m : member) (p : list string).

Lemma flag_of_Some m p b : flag_of m p = Some b → p `prefix_of` member_parts m.
Proof. unfold flag_of. by case_decide. Qed.

Lemma first_flag_app ms ms' p :
  first_flag (ms ++ ms') p =
    match first_flag ms p with Some b => Some b | None => first_flag ms' p end.
Proof.
  induction ms as [|m ms IH]; simpl; [done|]. by destruct (flag_of m p).
Qed.

Lemma first_flag_Some ms p b :
  first_flag ms p = Some b → ∃ m, m ∈ ms ∧ flag_of m p = Some b.
Proof.
  induction ms as [|m ms IH]; simpl; [done|].
  destruct (flag_of m p) as [b'|] eqn:E.
  - intros [= ->]. exists m. split; [left|done].
  - intros (m' & Hin & Hf)%IH. exists m'. split; [by right|done].
Qed.

Lemma first_flag_None ms p :
  first_flag ms p = None ↔ ∀ m, m ∈ ms → ¬ p `prefix_of` member_parts m.
Proof.
  induction ms as [|m ms IH]; simpl.
  - split; [|done]. intros _ m H. by apply elem_of_nil in H.
  - unfold flag_of at 1. case_decide as Hp.
    + split; [done|]. intros H. destruct (H m); [left|done].
    + rewrite IH. split.
      * intros H m' [->|Hin]%elem_of_cons; auto.
      * intros H m' Hin. apply H. by right.
Qed.

Lemma WF_root : WF [mkNode "/" true []].
Proof.
  assert (Hno : ∀ n k c, ¬ edge [mkNode "/" true []] n k c).
  { intros [|n] k c (nd & Hl & Hin); simplify_eq/=. by apply elem_of_nil in Hin. }
  split.
  - by eexists.
  - intros [|n] nd; intros [= <-]. constructor.
  - intros n k c E. by destruct (Hno _ _ _ E).
  - intros n1 k1 n2 k2 c E. by destruct (Hno _ _ _ E).
  - intros n k. apply Hno.
Qed.

Lemma built_init : built [] [mkNode "/" true []].
Proof.
  split.
  - apply WF_root.
  - by eexists.
  - intros n Hn. simpl in Hn. exists []. simpl. f_equal. unfold root_node. lia.
  - intros [|k p] x nd Hp; [done|]. done.
  - intros m r H. by apply elem_of_nil in H.
Qed.

Lemma built_step ms h m : built ms h → built (ms ++ [m]) (build_member h m).
Proof.
  intros [Hwf Hroot Hreach Hflag Hcov]. unfold build_member.
  destruct (build_parts_shape (member_parts m) h root_node 0
              (length (member_parts m)) m.2 [] Hwf eq_refl eq_refl eq_refl)
    as (Hwf' & Hext & Hnew & Hcov' & Hreach').
  set (h' := build_parts _ _ _ _ _ _) in *. split.
  - done.
  - destruct Hroot as (nd & Hr & Hn & Hd).
    destruct (ext_same _ _ Hext _ _ Hr) as (nd' & ? & ? & ?).
    exists nd'. split_and!; congruence.
  - intros n Hn. destruct (decide (n < length h)) as [Hlt|Hge].
    + destruct (Hreach n Hlt) as [p Hp]. exists p. by apply (ext_walk _ _ Hext).
    + apply Hreach'; [lia|done].
  - intros p x nd Hp Hw Hx. rewrite first_flag_app.
    destruct (walk h root_node p) as [x0|] eqn:Hw0.
    + assert (x0 = x) as ->.
      { apply (ext_walk _ _ Hext) in Hw0. congruence. }
      destruct (walk_in_store h root_node p x Hwf (wf_root h Hwf) Hw0)
        as [nd0 Hx0].
      rewrite (Hflag p x nd0 Hp Hw0 Hx0).
      destruct (ext_same _ _ Hext _ _ Hx0) as (nd' & ? & _ & ?). congruence.
    + assert (first_flag ms p = None) as ->.
      { apply first_flag_None. intros m0 Hm0 Hpre.
        destruct (Hcov m0 p Hm0 Hpre) as [? ?]. congruence. }
      destruct (Hnew p x Hw Hw0) as (r & nd' & _ & -> & Hr & Hx' & Hd).
      simpl in *. unfold flag_of. rewrite decide_True by done.
      assert (nd' = nd) as -> by congruence. by rewrite Hd.
  - intros m0 r [Hin|Hin]%elem_of_app Hr.
    + destruct (Hcov m0 r Hin Hr) as [x Hx]. exists x.
      by apply (ext_walk _ _ Hext).
    + apply list_elem_of_singleton in Hin as ->. apply (Hcov' r Hr).
Qed.

Lemma built_fold ms ms0 h :
  built ms0 h → built (ms0 ++ ms) (fold_left build_member ms h).
Proof.
  revert ms0 h. induction ms as [|m ms IH]; intros ms0 h Hb; simpl.
  - by rewrite app_nil_r.
  - rewrite (assoc_L _ ms0 [m] ms : ms0 ++ m :: ms = (ms0 ++ [m]) ++ ms).
    apply IH. by apply built_step.
Qed.

Lemma build_tree_built ms : built ms (_build_tree ms).
Proof. apply (built_fold ms [] _ built_init). Qed.

Lemma build_tree_WF ms : WF (_build_tree ms).
Proof. apply build_tree_built. Qed.

(** The built tree, path by path. *)
Lemma build_tree_node_at ms p :
  node_at (_build_tree ms) p =
    match p with
    | [] => Some ("/", true)
    | _ => (λ b, (last_of p, b)) <$> first_flag ms p
    end.
Proof.
  destruct (build_tree_built ms) as [Hwf Hroot Hreach Hflag Hcov].
  set (h := _build_tree ms) in *. unfold node_at.
  destruct p as [|k0 p0].
  { destruct Hroot as (nd & Hr & Hn & Hd). simpl. rewrite Hr. simpl.
    by rewrite Hn, Hd. }
  set (p := k0 :: p0) in *. assert (Hp : p ≠ []) by done. clearbody p.
  destruct (walk h root_node p) as [x|] eqn:Hw; simpl.
  - destruct (walk_in_store h root_node p x Hwf (wf_root h Hwf) Hw) as [nd Hx].
    rewrite Hx, (Hflag p x nd Hp Hw Hx). simpl. f_equal. f_equal.
    destruct p as [|k p _] using rev_ind; [done|].
    apply walk_snoc in Hw as (y & _ & E%get_child_edge).
    destruct (wf_child h Hwf _ _ _ E) as (cd & Hcd & <-).
    unfold last_of. rewrite last_last. congruence.
  - destruct (first_flag ms p) as [b|] eqn:Hf; [|done].
    apply first_flag_Some in Hf as (m & Hin & Hpre%flag_of_Some).
    destruct (Hcov m p Hin Hpre) as [? ?]. congruence.
Qed.
End BuildTree.

(** ** The order of the members *)

Section Order.
Implicit Types (ms : list member) (m : member) (p : list string).

Lemma consistent_spec ms :
  consistent ms = true ↔ ∀ m1 m2, m1 ∈ ms → m2 ∈ ms → agree m1 m2 = true.
Proof.
  unfold consistent. rewrite forallb_forall.
  setoid_rewrite forallb_forall. setoid_rewrite list_elem_of_In. naive_solver.
Qed.

Lemma consistent_perm ms1 ms2 :
  ms1 ≡ₚ ms2 → consistent ms1 = true → consistent ms2 = true.
Proof.
  intros Hp. rewrite !consistent_spec. intros H m1 m2 H1 H2.
  apply H; by rewrite Hp.
Qed.

(** Two members that agree give the same flag to a node both go through. *)
Lemma agree_flag m1 m2 p b1 b2 :
  agree m1 m2 = true → agree m2 m1 = true →
  flag_of m1 p = Some b1 → flag_of m2 p = Some b2 → b1 = b2.
Proof.
  unfold agree, flag_of. intros A12 A21.
  destruct (decide (p `prefix_of` member_parts m1)) as [P1|]; [|done].
  destruct (decide (p `prefix_of` member_parts m2)) as [P2|]; [|done].
  intros [= <-] [= <-].
  destruct (decide (p = member_parts m1)) as [E1|N1],
           (decide (p = member_parts m2)) as [E2|N2].
  - rewrite !bool_decide_eq_true_2 by done. simpl.
    rewrite decide_True, decide_True in A12 by congruence.
    by apply Bool.eqb_prop.
  - rewrite bool_decide_eq_true_2, bool_decide_eq_false_2 by done. simpl.
    rewrite decide_True, decide_False in A12 by congruence. done.
  - rewrite bool_decide_eq_false_2, bool_decide_eq_true_2 by done. simpl.
    rewrite decide_True, decide_False in A21 by congruence. done.
  - by rewrite !bool_decide_eq_false_2.
Qed.

Lemma first_flag_consistent ms m p b :
  consistent ms = true → m ∈ ms → flag_of m p = Some b →
  first_flag ms p = Some b.
Proof.
  rewrite consistent_spec. intros Hc Hin Hf.
  destruct (first_flag ms p) as [b'|] eqn:E.
  - apply first_flag_Some in E as (m' & Hin' & Hf').
    f_equal. eapply (agree_flag m' m); eauto.
  - rewrite first_flag_None in E. destruct (E m Hin). by eapply flag_of_Some.
Qed.

Lemma first_flag_perm_Some ms1 ms2 p :
  ms1 ≡ₚ ms2 → is_Some (first_flag ms1 p) → is_Some (first_flag ms2 p).
Proof.
  intros Hp [b (m & Hin & Hf%flag_of_Some)%first_flag_Some].
  destruct (first_flag ms2 p) eqn:E; [done|].
  rewrite first_flag_None in E. destruct (E m); [by rewrite <- Hp|done].
Qed.

Lemma first_flag_perm ms1 ms2 p :
  ms1 ≡ₚ ms2 → consistent ms1 = true → first_flag ms1 p = first_flag ms2 p.
Proof.
  intros Hp Hc. destruct (first_flag ms1 p) as [b|] eqn:E.
  - apply first_flag_Some in E as (m & Hin & Hf). symmetry.
    eapply first_flag_consistent; [by eapply consistent_perm| |done].
    by rewrite <- Hp.
  - symmetry. rewrite first_flag_None in E |- *.
    intros m Hin. apply E. by rewrite Hp.
Qed.

(** A member gives the flag false to its own path only, and only when it
    is a file. *)
Lemma flag_of_false m p :
  flag_of m p = Some false → p = member_parts m ∧ m.2 = false.
Proof.
  unfold flag_of. case_decide; [|done].
  intros [= [He%negb_false_iff Hd]%orb_false_iff].
  by apply bool_decide_eq_true in He.
Qed.

Lemma extended_in_spec ms p :
  extended_in ms p = true
  ↔ ∃ m, m ∈ ms ∧ p `prefix_of` member_parts m ∧ p ≠ member_parts m.
Proof.
  unfold extended_in. rewrite existsb_exists. split.
  - intros (m & Hin%list_elem_of_In & H%bool_decide_eq_true). eauto.
  - intros (m & Hin%list_elem_of_In & H). exists m.
    split; [done|]. by apply bool_decide_eq_true.
Qed.

(** A node has children when a walk goes on from it. *)
Lemma get_child_children h n nd k c :
  h !! n = Some nd → get_child h n k = Some c → children nd ≠ [].
Proof.
  unfold get_child. intros -> H Hc. simpl in H. by rewrite Hc in H.
Qed.
End Order.

(** C2, as the code has it: the members in another order give a tree with
    nodes at the same paths and with the same names.  The flags are the same
    too when the members agree on them, that is when no member that is a file
    has a path that another member extends or names as a directory. *)
Theorem build_tree_permutation (ms1 ms2 : list member) :
  ms1 ≡ₚ ms2 →
  (∀ p, fst <$> node_at (_build_tree ms1) p = fst <$> node_at (_build_tree ms2) p)
  ∧ (consistent ms1 = true →
     ∀ p, node_at (_build_tree ms1) p = node_at (_build_tree ms2) p).
Proof.
  intros Hp. split.
  - intros p. rewrite !build_tree_node_at. destruct p as [|k p]; [done|].
    rewrite <- !option_fmap_compose.
    destruct (first_flag ms1 (k :: p)) as [b1|] eqn:E1.
    + destruct (first_flag_perm_Some ms1 ms2 (k :: p) Hp) as [b2 ->];
        [by rewrite E1|done].
    + destruct (first_flag ms2 (k :: p)) as [b2|] eqn:E2; [|done].
      destruct (first_flag_perm_Some ms2 ms1 (k :: p)) as [b1 Hb];
        [done|by rewrite E2|congruence].
  - intros Hc p. rewrite !build_tree_node_at. destruct p as [|k p]; [done|].
    by rewrite (first_flag_perm ms1 ms2).
Qed.

Lemma build_tree_permutation_witness :
  let ms1 := [("b/c", false); ("a", true); ("b", true)] in
  let ms2 := [("a", true); ("b", true); ("b/c", false)] in
  ms1 ≡ₚ ms2 ∧ consistent ms1 = true
  ∧ ∀ p, node_at (_build_tree ms1) p = node_at (_build_tree ms2) p.
Proof.
  intros ms1 ms2.
  assert (Hp : ms1 ≡ₚ ms2)
    by apply (Permutation_cons_append [("a", true); ("b", true)] ("b/c", false)).
  split; [exact Hp|]. split; [reflexivity|].
  apply (build_tree_permutation ms1 ms2 Hp). reflexivity.
Defined.

(** C2 as it is stated fails: a file named before a member below it stays a
    file, and is a directory when the two come the other way round. *)
Lemma build_tree_order_matters :
  [("a", false); ("a/b", false)] ≡ₚ [("a/b", false); ("a", false)]
  ∧ node_at (_build_tree [("a", false); ("a/b", false)]) ["a"] = Some ("a", false)
  ∧ node_at (_build_tree [("a/b", false); ("a", false)]) ["a"] = Some ("a", true).
Proof. split; [apply perm_swap|]. vm_compute. done. Qed.

(** C3, as the code has it: a node keeps the flag it was created with, the
    flag of the first member whose path goes through it, which is true when
    that member's path goes on and the member's own flag when it ends there.
    So the nodes with children are all directories exactly when no path is
    both created as a file and gone beyond by a member. *)
Theorem build_tree_children_dirs (ms : list member) :
  let h := _build_tree ms in
  (∀ n nd, h !! n = Some nd → n ≠ root_node →
     ∃ p, p ≠ [] ∧ walk h root_node p = Some n
          ∧ first_flag ms p = Some (is_dir nd))
  ∧ (files_stay_leaves ms = true
     ↔ ∀ n nd, h !! n = Some nd → children nd ≠ [] → is_dir nd = true).
Proof.
  intros h.
  destruct (build_tree_built ms) as [Hwf Hroot Hreach Hflag Hcov].
  fold h in Hwf, Hroot, Hreach, Hflag, Hcov.
  split; [|split].
  - intros n nd Hn Hnr.
    destruct (Hreach n (lookup_lt_Some _ _ _ Hn)) as [p Hp].
    destruct p as [|k0 p0]; [by injection Hp as <-|].
    exists (k0 :: p0). split; [done|]. split; [done|]. by eapply Hflag.
  - intros Hms n nd Hn Hch.
    destruct (Hreach n (lookup_lt_Some _ _ _ Hn)) as [p Hp].
    destruct p as [|k0 p0].
    { injection Hp as <-. destruct Hroot as (r & Hr & _ & Hd). congruence. }
    destruct (is_dir nd) eqn:Hd; [done|]. exfalso.
    assert (Hne : k0 :: p0 ≠ []) by done.
    pose proof (Hflag _ _ _ Hne Hp Hn) as Hf. rewrite Hd in Hf.
    destruct (first_flag_Some _ _ _ Hf) as (m & Hin & [Hpm _]%flag_of_false).
    destruct (children nd) as [|[k c] d] eqn:Hc; [done|].
    assert (E : edge h n k c).
    { exists nd. split; [done|]. rewrite Hc. left. }
    assert (Hpk : walk h root_node ((k0 :: p0) ++ [k]) = Some c).
    { apply walk_snoc. exists n. split; [done|]. by apply edge_get_child. }
    destruct (wf_child _ Hwf _ _ _ E) as (cd & Hcd & _).
    assert (Hne' : (k0 :: p0) ++ [k] ≠ []) by done.
    pose proof (Hflag _ _ _ Hne' Hpk Hcd) as Hfc.
    apply first_flag_Some in Hfc as (m' & Hin' & Hpre%flag_of_Some).
    unfold files_stay_leaves in Hms. rewrite forallb_forall in Hms.
    apply list_elem_of_In, Hms, negb_true_iff, andb_false_iff in Hin.
    destruct Hin as [Hk|He].
    + unfold kept_as_file in Hk. apply bool_decide_eq_false in Hk.
      by rewrite <- Hpm in Hk.
    + rewrite <- Hpm in He.
      assert (extended_in ms (k0 :: p0) = true); [|congruence].
      apply extended_in_spec. exists m'. split; [done|].
      split; [by eapply prefix_app_l|].
      intros Heq. rewrite <- Heq in Hpre. by apply prefix_snoc_not in Hpre.
  - intros Hdirs. unfold files_stay_leaves. apply forallb_forall.
    intros m Hin%list_elem_of_In. apply negb_true_iff, not_true_iff_false.
    intros [Hk%bool_decide_eq_true He%extended_in_spec]%andb_true_iff.
    destruct He as (m' & Hin' & [q Hq] & Hneq).
    destruct q as [|k q]; [by rewrite app_nil_r in Hq|].
    destruct (Hcov m (member_parts m) Hin) as [n Hn]; [done|].
    destruct (Hcov m' (member_parts m ++ [k]) Hin') as [c Hc].
    { exists q. by rewrite Hq, <- app_assoc. }
    destruct (walk_in_store h root_node _ n Hwf (wf_root h Hwf) Hn) as [nd Hnd].
    assert (Hne : member_parts m ≠ []) by apply split_nonempty.
    pose proof (Hflag _ _ _ Hne Hn Hnd) as Hf. rewrite Hk in Hf.
    apply walk_snoc in Hc as (n' & Hn' & Hc).
    assert (n' = n) as -> by congruence.
    rewrite (Hdirs n nd Hnd (get_child_children _ _ _ _ _ Hnd Hc)) in Hf.
    done.
Qed.

(** An archive that names [a] as a file after [a/b]: the node is created as a
    directory, and every node with children is one. *)
Lemma build_tree_children_dirs_witness :
  let ms := [("a/b", false); ("a", false); ("a/c", false)] in
  files_stay_leaves ms = true
  ∧ ∀ n nd, _build_tree ms !! n = Some nd → children nd ≠ [] →
            is_dir nd = true.
Proof.
  intros ms.
  assert (H : files_stay_leaves ms = true) by reflexivity.
  split; [exact H|].
  exact (proj1 (proj2 (build_tree_children_dirs ms)) H).
Defined.

(** C3 as it is stated fails, on the archive of [test.py] too: [dir1] is
    named as a file first and keeps that flag when its children arrive. *)
Lemma build_tree_file_with_children :
  ∃ nd, _build_tree test_members !! 1 = Some nd
        ∧ name nd = "dir1" ∧ children nd ≠ [] ∧ is_dir nd = false.
Proof.
  exists (mkNode "dir1" false [("file1.txt", 2); ("file2.txt", 3)]).
  vm_compute. done.
Qed.

(** ** Moves *)

(** C9, as the code has it: after any sequence of [mv] commands applied to a
    built tree, whether they succeed or not, as long as none of them names the
    root as its source, every child is filed under its own name, siblings have
    different names, no node has two parents, and a single path leads from the
    root to each node it reaches. *)
Theorem mv_keeps_tree (ms : list member) (moves : list (list string)) :
  Forall non_root_source moves → is_tree (heap (run_mvs (init ms) moves)).
Proof.
  intros Hm. apply WF_is_tree, run_mvs_WF; [|done]. apply build_tree_WF.
Qed.

Lemma mv_keeps_tree_witness :
  let moves := [["file4.txt"; "dir1/file4.txt"]; ["dir1"; "dir2/sub"]] in
  Forall non_root_source moves
  ∧ is_tree (heap (run_mvs (init test_members) moves)).
Proof.
  intros moves.
  assert (Hm : Forall non_root_source moves) by (repeat constructor; done).
  split; [exact Hm|]. exact (mv_keeps_tree test_members moves Hm).
Defined.

(** The fifth check of [test.py]. *)
Example mv_test_archive :
  let r := _mv_cmd (init test_members) ["file4.txt"; "dir1/file4.txt"] in
  r.1 = Return "file4.txt moved to dir1/file4.txt."
  ∧ (_ls_cmd r.2 ["dir1"]).1
    = Return ("file1.txt" +:+ nl +:+ "file2.txt" +:+ nl +:+ "file4.txt")
  ∧ (_ls_cmd r.2 []).1 = Return ("dir1" +:+ nl +:+ "dir2").
Proof. vm_compute. done. Qed.

(** C9 as it is stated fails: when the archive has a member whose name is a
    slash, the root has a child with the empty name, and [mv / x] succeeds and
    files the root in itself. *)
Lemma mv_root_source_cycle :
  let r := _mv_cmd (init [("/", true)]) ["/"; "x"] in
  r.1 = Return "/ moved to x."
  ∧ edge (heap r.2) root_node "x" root_node
  ∧ ¬ is_tree (heap r.2).
Proof.
  split; [reflexivity|]. split.
  - eexists. split; [reflexivity|]. left.
  - intros [_ _ _ Hpath]. by specialize (Hpath root_node [] ["x"] eq_refl eq_refl).
Qed.

(** What is left of the source once the second look-up fails, whether the
    parent of the destination was missing all along or went away with the
    source. *)
Lemma mv_detached (self : App) (a0 a1 : string) (rest : list string)
    (src_node src_parent : nat) (h1 : Heap) :
  let src_parts := split "/" (strip "/" a0) in
  let dest_parts := split "/" (strip "/" a1) in
  let r := _mv_cmd self (a0 :: a1 :: rest) in
  WF (heap self) →
  _find_node_by_path (heap self) src_parts = Some src_node →
  _find_node_by_path (heap self) dest_parts = None →
  _find_node_by_path (heap self) (but_last src_parts) = Some src_parent →
  get_child (heap self) src_parent (last_of src_parts) = Some src_node →
  pop_child (heap self) src_parent (last_of src_parts) = Some h1 →
  _find_node_by_path h1 (but_last dest_parts) = None →
  r = (Return ("Destination parent not found: "
               +:+ join "/" (but_last dest_parts)), set_heap self h1)
  ∧ get_child h1 src_parent (last_of src_parts) = None
  ∧ (∀ n k, ¬ edge h1 n k src_node)
  ∧ (∀ q x p, walk h1 src_node q = Some x → walk h1 root_node p ≠ Some x).
Proof.
  intros src_parts dest_parts r Hwf Hs Hd Hsp Hc Hpop Hdp1.
  assert (Hr : r = (Return ("Destination parent not found: "
                            +:+ join "/" (but_last dest_parts)),
                    set_heap self h1)).
  { subst r. unfold _mv_cmd. fold src_parts dest_parts.
    by rewrite Hs, Hd, Hsp, Hpop, Hdp1. }
  pose proof (pop_child_WF _ _ _ _ Hwf Hpop) as Hwf1.
  pose proof (pop_child_detached _ _ _ _ _ Hwf Hc Hpop) as Hfree.
  destruct (pop_child_shape _ _ _ _ Hwf Hpop) as (_ & He & _).
  assert (Hroot : src_node ≠ root_node).
  { intros ->. apply get_child_edge in Hc. exact (wf_root_top _ Hwf _ _ Hc). }
  split_and!; try done.
  - destruct (get_child h1 src_parent (last_of src_parts)) as [c|] eqn:E; [|done].
    apply get_child_edge, He in E as [_ E]. naive_solver.
  - intros q x p Hq Hp.
    destruct (walk_unique h1 src_node root_node q p x Hwf1 Hfree
                (wf_root_top _ Hwf1) Hq Hp) as [? _]. done.
Qed.

(** C1, as the code has it: when the source is not the root and resolves,
    the destination does not resolve and neither does the path of its parent,
    [mv] answers that the destination parent was not found, and by then the
    source node is gone from the dictionary of its parent, is filed nowhere,
    and nothing of what lies below it is reached from the root any more. *)
Theorem mv_lost_node (self : App) (a0 a1 : string) (rest : list string)
    (src_node src_parent : nat) :
  let src_parts := split "/" (strip "/" a0) in
  let dest_parts := split "/" (strip "/" a1) in
  let r := _mv_cmd self (a0 :: a1 :: rest) in
  WF (heap self) →
  strip "/" a0 ≠ EmptyString →
  _find_node_by_path (heap self) src_parts = Some src_node →
  _find_node_by_path (heap self) dest_parts = None →
  _find_node_by_path (heap self) (but_last src_parts) = Some src_parent →
  _find_node_by_path (heap self) (but_last dest_parts) = None →
  r.1 = Return ("Destination parent not found: "
                +:+ join "/" (but_last dest_parts))
  ∧ cur_dir r.2 = cur_dir self
  ∧ get_child (heap self) src_parent (last_of src_parts) = Some src_node
  ∧ get_child (heap r.2) src_parent (last_of src_parts) = None
  ∧ (∀ n k, ¬ edge (heap r.2) n k src_node)
  ∧ (∀ q x p, walk (heap r.2) src_node q = Some x →
              walk (heap r.2) root_node p ≠ Some x)
  ∧ (∀ q x parts, walk (heap r.2) src_node q = Some x →
                  _find_node_by_path (heap r.2) parts ≠ Some x).
Proof.
  intros src_parts dest_parts r Hwf Hsrc Hs Hd Hsp Hdp.
  destruct (find_parent_child _ _ _ Hsrc Hs) as (sp & Hsp' & Hc).
  fold src_parts in Hsp', Hc. rewrite Hsp in Hsp'. injection Hsp' as <-.
  destruct (pop_child_is_Some _ _ _ _ Hc) as [h1 Hpop].
  pose proof (pop_child_find _ _ _ _ _ Hwf Hpop Hdp) as Hdp1.
  destruct (mv_detached self a0 a1 rest src_node src_parent h1
              Hwf Hs Hd Hsp Hc Hpop Hdp1) as (Hr & Hgone & Hfree & Hunreach).
  fold r in Hr. rewrite Hr. simpl. split_and!; try done.
  intros q x parts Hq. unfold _find_node_by_path. rewrite find_from_walk.
  by eapply Hunreach.
Qed.

Lemma mv_lost_node_witness :
  let self := init test_members in
  let r := _mv_cmd self ["dir1"; "dir1/sub/inner"] in
  WF (heap self)
  ∧ r.1 = Return "Destination parent not found: dir1/sub"
  ∧ ∀ parts, _find_node_by_path (heap r.2) parts ≠ Some 2.
Proof.
  intros self r.
  assert (Hwf : WF (heap self)) by apply build_tree_WF.
  split; [exact Hwf|].
  destruct (mv_lost_node self "dir1" "dir1/sub/inner" [] 1 root_node Hwf)
    as (Hres & _ & _ & _ & _ & _ & Hfind);
    [discriminate | reflexivity | reflexivity | reflexivity | reflexivity |].
  split; [exact Hres|].
  intros parts. apply (Hfind ["file1.txt"]). reflexivity.
Defined.

(** The same loss when a node is moved below itself: the parent of the
    destination resolves before the source is detached and no longer after. *)
Example mv_below_itself :
  let r := _mv_cmd (init test_members) ["dir1"; "dir1/inner"] in
  r.1 = Return "Destination parent not found: dir1"
  ∧ (_ls_cmd r.2 []).1 = Return ("dir2" +:+ nl +:+ "file4.txt")
  ∧ _find_node_by_path (heap r.2) ["dir1"] = None.
Proof. vm_compute. done. Qed.

(** C1 as it is stated fails for the root as the source: all four conditions
    hold, and [mv] raises [KeyError] instead of answering. *)
Lemma mv_root_source_raises :
  let self := init test_members in
  _find_node_by_path (heap self) (split "/" (strip "/" "/")) = Some root_node
  ∧ _find_node_by_path (heap self) (split "/" (strip "/" "x/y")) = None
  ∧ _find_node_by_path (heap self) (but_last (split "/" (strip "/" "/")))
    = Some root_node
  ∧ _find_node_by_path (heap self) (but_last (split "/" (strip "/" "x/y")))
    = None
  ∧ _mv_cmd self ["/"; "x/y"] = (Raise (KeyError EmptyString), self).
Proof. vm_compute. done. Qed.

(** ** [tree] *)

Section Render.
Implicit Types (h : Heap) (p : list string).

Lemma string_app_assoc (a b c : string) : (a +:+ b) +:+ c = a +:+ (b +:+ c).
Proof.
  induction a as [|x a IH]; [done|].
  change (String x ((a +:+ b) +:+ c) = String x (a +:+ (b +:+ c))).
  by rewrite IH.
Qed.




Global Instance tree_order_trans h : Transitive (tree_order h).
Proof.
  intros a b c [[A1 B1]|[E1 L1]] [[A2 B2]|[E2 L2]].
  - congruence.
  - left. split; congruence.
  - left. split; congruence.
  - right. split; [congruence|]. by etrans.
Qed.






End Render.



(** The two renderings that [test.py] checks. *)
Example tree_test_archive :
  (_tree_cmd 10 (init test_members) []).1
    = Return ("//" +:+ nl +:+ "|  dir1" +:+ nl +:+ "|  |  file1.txt" +:+ nl
              +:+ "|     file2.txt" +:+ nl +:+ "|  dir2" +:+ nl
              +:+ "|     file3.txt" +:+ nl +:+ "   file4.txt" +:+ nl)
  ∧ (_tree_cmd 10 (init test_members) ["dir1"]).1
    = Return ("dir1" +:+ nl +:+ "|  file1.txt" +:+ nl +:+ "   file2.txt" +:+ nl)
  ∧ (_tree_cmd 10 (init test_members) ["nowhere"]).1
    = Return "Directory not found.".
Proof. vm_compute. done. Qed.

(** Directories come first when there are some. *)
Example tree_dirs_first :
  (_tree_cmd 10 (init [("b.txt", false); ("z", true); ("a.txt", false);
                       ("m", true)]) []).1
    = Return ("//" +:+ nl +:+ "|  m/" +:+ nl +:+ "|  z/" +:+ nl
              +:+ "|  a.txt" +:+ nl +:+ "   b.txt" +:+ nl).
Proof. vm_compute. done. Qed.

(** * More of the program *)

(** ** Splitting and joining *)

Section SplitJoin.
Variable c : ascii.

Lemma string_app_cons (a : ascii) (x y : string) :
  String a x +:+ y = String a (x +:+ y).
Proof. reflexivity. Qed.

Lemma string_app_nil (y : string) : EmptyString +:+ y = y.
Proof. reflexivity. Qed.

(** A separator between two strings separates their pieces. *)
Lemma split_app (x t : string) :
  split c (x +:+ String c t) = split c x ++ split c t.
Proof.
  induction x as [|a x IH].
  - rewrite string_app_nil. simpl. by rewrite Ascii.eqb_refl.
  - rewrite string_app_cons. simpl. rewrite IH.
    destruct (Ascii.eqb a c); [done|].
    pose proof (split_nonempty c x). by destruct (split c x).
Qed.

Lemma split_no_sep (t : string) : mem_char c t = false → split c t = [t].
Proof.
  induction t as [|a t IH]; simpl; [done|].
  intros [Ha Ht]%orb_false_iff. by rewrite Ha, (IH Ht).
Qed.

Lemma split_pieces (s : string) :
  Forall (λ w, mem_char c w = false) (split c s).
Proof.
  induction s as [|a s IH]; simpl; [by repeat constructor|].
  destruct (Ascii.eqb a c) eqn:E; [by constructor|].
  pose proof (split_nonempty c s).
  destruct (split c s) as [|w ws]; [done|].
  apply Forall_cons in IH as [Hw Hws]. constructor; [|done]. simpl.
  by rewrite E, Hw.
Qed.

Lemma join_split (s : string) : join (String c EmptyString) (split c s) = s.
Proof.
  induction s as [|a s IH]; simpl; [done|].
  pose proof (split_nonempty c s).
  destruct (Ascii.eqb_spec a c) as [->|Hne].
  - destruct (split c s) as [|w ws]; [done|].
    change (join _ (EmptyString :: w :: ws))
      with (EmptyString +:+ String c EmptyString +:+ join (String c EmptyString) (w :: ws)).
    by rewrite IH.
  - destruct (split c s) as [|w [|w' ws]]; [done| |].
    + simpl in *. by rewrite IH.
    + change (join _ (String a w :: w' :: ws))
        with (String a w +:+ String c EmptyString
              +:+ join (String c EmptyString) (w' :: ws)).
      rewrite string_app_cons. f_equal. exact IH.
Qed.

(** Text without a separator, put after a string, goes to its last piece. *)
Lemma split_app_tail (x y : string) :
  mem_char c y = false →
  split c (x +:+ y) = but_last (split c x) ++ [last_of (split c x) +:+ y].
Proof.
  intros Hy. unfold but_last, last_of. induction x as [|a x IH].
  - rewrite string_app_nil, (split_no_sep y Hy). done.
  - rewrite string_app_cons. simpl. rewrite IH.
    pose proof (split_nonempty c x).
    destruct (Ascii.eqb a c).
    + destruct (split c x) as [|w ws]; [done|]. done.
    + destruct (split c x) as [|w [|w' ws]]; [done| |]; simpl; done.
Qed.

Lemma last_split_app (x y : string) :
  mem_char c y = false →
  last_of (split c (x +:+ y)) = last_of (split c x) +:+ y.
Proof.
  intros Hy. rewrite (split_app_tail x y Hy). unfold last_of. apply last_last.
Qed.
End SplitJoin.

(** ** Resolving paths *)

(** X1: a path resolves part by part: the path made of [s1], a slash and
    [s2] leads to the node that [s2] leads to from the node of [s1], and to
    no node when [s1] leads to none. *)
Theorem find_path_compose (h : Heap) (s1 s2 : string) :
  _find_node_by_path h (split "/" (s1 +:+ String "/" s2))
  = _find_node_by_path h (split "/" s1) ≫= λ n, find_from h n (split "/" s2).
Proof.
  unfold _find_node_by_path. rewrite split_app, !find_from_walk, filter_app, walk_app.
  destruct (walk h root_node _) as [n|]; simpl; [|done].
  by rewrite find_from_walk.
Qed.

(** X2: slashes in a row count as one: a doubled slash inside a path leads
    where the single slash leads. *)
Theorem find_doubled_slash (h : Heap) (s1 s2 : string) :
  _find_node_by_path h (split "/" (s1 +:+ String "/" (String "/" s2)))
  = _find_node_by_path h (split "/" (s1 +:+ String "/" s2)).
Proof.
  unfold _find_node_by_path. rewrite !split_app, !find_from_walk, !filter_app.
  change (split "/" (String "/" s2)) with (EmptyString :: split "/" s2).
  by rewrite filter_cons_False by naive_solver.
Qed.

(** ** [cd] resolves below the current directory *)

Section Relative.
Implicit Types (h : Heap) (s t : string).

Lemma split_cons (a : ascii) s :
  split "/" (String a s)
  = if Ascii.eqb a "/" then EmptyString :: split "/" s
    else match split "/" s with
         | w :: ws => String a w :: ws
         | [] => [String a EmptyString]
         end.
Proof. reflexivity. Qed.

(** The slashes at the right end of a string give empty parts only. *)
Lemma split_rstrip s :
  ∃ w ws ws', split "/" (rstrip "/" s) = w :: ws ∧ split "/" s = w :: ws'
    ∧ filter (λ x, x ≠ EmptyString) ws = filter (λ x, x ≠ EmptyString) ws'.
Proof.
  induction s as [|a s (w & ws & ws' & Hr & Hs & Hf)].
  { by exists EmptyString, [], []. }
  rewrite rstrip_cons, (split_cons a s), Hs.
  destruct (rstrip "/" s) as [|b r] eqn:Er.
  - injection Hr as <- <-.
    destruct (Ascii.eqb a "/") eqn:Ea.
    + exists EmptyString, [], (EmptyString :: ws'). split_and!; [done..|].
      by rewrite filter_cons_False by naive_solver.
    + exists (String a EmptyString), [], ws'. split_and!; [|done..].
      by rewrite split_cons, Ea.
  - rewrite (split_cons a (String b r)), Hr. destruct (Ascii.eqb a "/") eqn:Ea.
    + exists EmptyString, (w :: ws), (w :: ws'). split_and!; [done..|].
      destruct (decide (w = EmptyString)) as [Hw|Hw].
      * by rewrite !filter_cons_False by naive_solver.
      * rewrite !filter_cons_True by done. by rewrite Hf.
    + by exists (String a w), ws, ws'.
Qed.

Lemma filter_split_rstrip s :
  filter (λ x, x ≠ EmptyString) (split "/" (rstrip "/" s))
  = filter (λ x, x ≠ EmptyString) (split "/" s).
Proof.
  destruct (split_rstrip s) as (w & ws & ws' & -> & -> & Hf).
  destruct (decide (w = EmptyString)) as [Hw|Hw].
  - by rewrite !filter_cons_False by naive_solver.
  - rewrite !filter_cons_True by done. by rewrite Hf.
Qed.

Lemma filter_split_lstrip s :
  filter (λ x, x ≠ EmptyString) (split "/" (lstrip "/" s))
  = filter (λ x, x ≠ EmptyString) (split "/" s).
Proof.
  induction s as [|a s IH]; [done|]. simpl lstrip.
  destruct (Ascii.eqb a "/") eqn:Ea; [|done].
  simpl split. rewrite Ea. by rewrite filter_cons_False by naive_solver.
Qed.

Lemma filter_split_strip s :
  filter (λ x, x ≠ EmptyString) (split "/" (strip "/" s))
  = filter (λ x, x ≠ EmptyString) (split "/" s).
Proof. unfold strip. by rewrite filter_split_lstrip, filter_split_rstrip. Qed.

(** The path that [cd] puts together leads where the target leads from the
    node of the current directory. *)
Lemma cd_path_relative h cur t :
  _find_node_by_path h
    (split "/" (strip "/" (rstrip "/" cur +:+ "/" +:+ t)))
  = _find_node_by_path h (path_parts cur) ≫= λ c, find_from h c (split "/" t).
Proof.
  unfold _find_node_by_path, path_parts.
  change ("/" +:+ t) with (String "/" t).
  rewrite !find_from_walk, !filter_split_strip, split_app, filter_app.
  rewrite filter_split_rstrip, walk_app.
  destruct (walk h root_node _) as [c|]; simpl; [|done].
  by rewrite find_from_walk.
Qed.
End Relative.

(** C10: [cd a] does what [cd] of the stripped [a] does, whatever the state
    and the later arguments; and unless the stripped argument is the two
    dots, it is looked up from the node of the current directory, never from
    the root: [cd] moves there when walking the parts of the stripped
    argument from that node ends in a directory, and answers that the
    directory was not found otherwise.  So [/dir1] leads where [dir1]
    leads. *)
Theorem cd_relative_to_cur_dir (self : App) (a : string) (rest : list string) :
  let h := heap self in
  let t := strip "/" a in
  let here := _find_node_by_path h (path_parts (cur_dir self)) in
  let target := here ≫= λ c, find_from h c (split "/" t) in
  _cd_cmd self (a :: rest) = _cd_cmd self (t :: rest)
  ∧ (t ≠ ".." →
     _cd_cmd self (a :: rest)
     = match target ≫= λ n, h !! n with
       | Some nd =>
           if is_dir nd then
             (Return EmptyString,
              set_cur_dir self
                ("/" +:+ strip "/" (rstrip "/" (cur_dir self) +:+ "/" +:+ t)))
           else (Return ("Directory not found: " +:+ t), self)
       | None => (Return ("Directory not found: " +:+ t), self)
       end).
Proof.
  intros h t here target. split; [apply cd_strips_argument|].
  intros Hup. unfold _cd_cmd. fold t h.
  rewrite decide_False by done.
  rewrite decide_False by apply strip_not_sep.
  rewrite (cd_path_relative h (cur_dir self) t). fold here target.
  by destruct target as [n|].
Qed.

Lemma cd_relative_to_cur_dir_witness :
  let self := (_cd_cmd (init [("a/dir1", true); ("dir1", false)]) ["a"]).2 in
  strip "/" "/dir1" ≠ ".."
  ∧ _find_node_by_path (heap self) (path_parts (cur_dir self)) = Some 1
  ∧ find_from (heap self) 1 (split "/" (strip "/" "/dir1")) = Some 2
  ∧ _find_node_by_path (heap self) (split "/" (strip "/" "/dir1")) = Some 3
  ∧ _cd_cmd self ["/dir1"] = (Return EmptyString, set_cur_dir self "/a/dir1").
Proof.
  intros self.
  assert (H : strip "/" "/dir1" ≠ "..") by discriminate.
  split; [exact H|]. split; [reflexivity|]. split; [reflexivity|].
  split; [reflexivity|].
  rewrite (proj2 (cd_relative_to_cur_dir self "/dir1" []) H).
  reflexivity.
Defined.

(** ** [Node.add_child] and [Node.get_child] *)

Lemma dict_get_set {V} (k k' : string) (v : V) (d : Dict.t V) :
  Dict.get k' (Dict.set k v d) = if decide (k = k') then Some v else Dict.get k' d.
Proof.
  induction d as [|[k0 v0] d IH]; simpl.
  - destruct (decide (k = k')); done.
  - destruct (decide (k0 = k)) as [->|Hk0]; simpl.
    + destruct (decide (k = k')); done.
    + destruct (decide (k0 = k')) as [->|?]; [by rewrite decide_False|done].
Qed.

(** X3: after [add_child], [get_child] on the same node with the name of the
    child gives that child, whatever was filed under the name before, and
    every other look-up gives what it gave. *)
Theorem get_child_add_child (h : Heap) (self child : nat) (sn cn : Node)
    (n : nat) (k : string) :
  h !! self = Some sn → h !! child = Some cn →
  get_child (add_child h self child) n k
  = if decide (n = self ∧ k = name cn) then Some child else get_child h n k.
Proof.
  intros Hs Hc. unfold add_child, get_child. rewrite Hs, Hc.
  pose proof (lookup_lt_Some _ _ _ Hs).
  destruct (decide (n = self)) as [->|Hn].
  - rewrite list_lookup_insert_eq, Hs by done. simpl. rewrite dict_get_set.
    destruct (decide (name cn = k)) as [<-|?].
    + by rewrite decide_True.
    + rewrite decide_False; [done|]. naive_solver.
  - rewrite list_lookup_insert_ne by done. rewrite decide_False; [done|]. naive_solver.
Qed.

Lemma get_child_add_child_witness :
  let h := _build_tree test_members in
  get_child (add_child h 4 6) 4 "file4.txt" = Some 6
  ∧ get_child (add_child h 4 6) 1 "file1.txt" = get_child h 1 "file1.txt".
Proof.
  intros h. split.
  - rewrite (get_child_add_child h 4 6
               (mkNode "dir2" false [("file3.txt", 5)])
               (mkNode "file4.txt" false []) 4 "file4.txt");
      [reflexivity | vm_compute; reflexivity | vm_compute; reflexivity].
  - rewrite (get_child_add_child h 4 6
               (mkNode "dir2" false [("file3.txt", 5)])
               (mkNode "file4.txt" false []) 1 "file1.txt");
      [reflexivity | vm_compute; reflexivity | vm_compute; reflexivity].
Defined.

(** ** What the commands leave alone *)

Section Frames.
Variable max_depth : nat.
Variable recursion_msg : string.
Implicit Types (self : App) (arg lines : list string).

Lemma ls_cmd_state self arg : (_ls_cmd self arg).2 = self.
Proof. unfold _ls_cmd. by repeat case_match. Qed.

Lemma tree_cmd_state self arg : (_tree_cmd max_depth self arg).2 = self.
Proof. unfold _tree_cmd. by repeat case_match. Qed.

Lemma cd_cmd_heap self arg : heap (_cd_cmd self arg).2 = heap self.
Proof. unfold _cd_cmd. by repeat case_match. Qed.

Lemma mv_cmd_cur_dir self arg : cur_dir (_mv_cmd self arg).2 = cur_dir self.
Proof. unfold _mv_cmd. by repeat case_match. Qed.

(** The state after a dispatch is the state the handler leaves. *)
Lemma cmd_exec_state self lines :
  (_cmd_exec max_depth recursion_msg self lines).2
  = match lines with
    | [] => self
    | l0 :: args =>
        match commands max_depth (strip_ws l0) with
        | Some handler => (handler self args).2
        | None => self
        end
    end.
Proof.
  unfold _cmd_exec. destruct lines as [|l0 args]; [done|].
  destruct (decide (strip_ws l0 = EmptyString)) as [->|?]; [done|].
  destruct (commands max_depth (strip_ws l0)) as [handler|]; [|done].
  by destruct (handler self args) as [[]].
Qed.

Lemma commands_cases cmd handler :
  commands max_depth cmd = Some handler →
  (cmd = "ls" ∧ handler = _ls_cmd) ∨ (cmd = "cd" ∧ handler = _cd_cmd)
  ∨ (cmd = "mv" ∧ handler = _mv_cmd)
  ∨ (cmd = "tree" ∧ handler = _tree_cmd max_depth)
  ∨ (cmd = "exit" ∧ handler = _exit_cmd).
Proof.
  unfold commands. repeat case_decide; intros [= <-]; naive_solver.
Qed.

(** X4: only [mv] changes the tree and only [cd] changes the current
    directory: a dispatch whose command is not [mv] leaves the store as it
    was, and one whose command is not [cd] leaves [cur_dir] as it was. *)
Theorem cmd_exec_frame self lines :
  let self' := (_cmd_exec max_depth recursion_msg self lines).2 in
  (strip_ws <$> head lines ≠ Some "mv" → heap self' = heap self)
  ∧ (strip_ws <$> head lines ≠ Some "cd" → cur_dir self' = cur_dir self).
Proof.
  intros self'. subst self'. rewrite cmd_exec_state.
  destruct lines as [|l0 args]; [done|]. simpl.
  destruct (commands max_depth (strip_ws l0)) as [handler|] eqn:Hc; [|done].
  apply commands_cases in Hc
    as [[-> ->]|[[-> ->]|[[-> ->]|[[-> ->]|[-> ->]]]]].
  - by rewrite ls_cmd_state.
  - rewrite cd_cmd_heap. split; [done|]. intros Hne. by destruct Hne; f_equal.
  - rewrite mv_cmd_cur_dir. split; [|done]. intros Hne. by destruct Hne; f_equal.
  - by rewrite tree_cmd_state.
  - done.
Qed.

(** A dispatch ends by [SystemExit] for [exit] alone, and never by an
    exception. *)
Lemma cmd_exec_outcome self lines :
  match (_cmd_exec max_depth recursion_msg self lines).1 with
  | Return _ => True
  | Raise _ => False
  | SystemExit => strip_ws <$> head lines = Some "exit"
  end.
Proof.
  unfold _cmd_exec. destruct lines as [|l0 args]; [done|].
  destruct (decide (strip_ws l0 = EmptyString)) as [?|?]; [done|].
  destruct (commands max_depth (strip_ws l0)) as [handler|] eqn:Hc; [|done].
  pose proof (handlers_return max_depth self args) as (Hls & Hcd & Hmv & Htree).
  apply commands_cases in Hc
    as [[Hn ->]|[[Hn ->]|[[Hn ->]|[[Hn ->]|[Hn ->]]]]].
  - by destruct (_ls_cmd self args) as [[]].
  - by destruct (_cd_cmd self args) as [[]].
  - by destruct (_mv_cmd self args) as [[]].
  - by destruct (_tree_cmd max_depth self args) as [[]].
  - simpl. by rewrite Hn.
Qed.

Lemma cmd_exec_exit self l0 args :
  strip_ws l0 = "exit" →
  _cmd_exec max_depth recursion_msg self (l0 :: args) = (SystemExit, self).
Proof. intros H. unfold _cmd_exec. by rewrite H. Qed.

(** A dispatch keeps the shape of the store unless it moves the root. *)
Lemma cmd_exec_WF self lines :
  WF (heap self) →
  (∀ l0 args, lines = l0 :: args → strip_ws l0 = "mv" → non_root_source args) →
  WF (heap (_cmd_exec max_depth recursion_msg self lines).2).
Proof.
  intros Hwf Hmv. rewrite cmd_exec_state.
  destruct lines as [|l0 args]; [done|].
  destruct (commands max_depth (strip_ws l0)) as [handler|] eqn:Hc; [|done].
  apply commands_cases in Hc
    as [[Hn ->]|[[Hn ->]|[[Hn ->]|[[Hn ->]|[Hn ->]]]]].
  - by rewrite ls_cmd_state.
  - by rewrite cd_cmd_heap.
  - apply mv_cmd_WF; [done|]. by eapply Hmv.
  - by rewrite tree_cmd_state.
  - done.
Qed.
End Frames.

Lemma cmd_exec_frame_witness :
  let self := init test_members in
  heap (_cmd_exec 10 "deep" self ["cd"; "dir1"]).2 = heap self
  ∧ cur_dir (_cmd_exec 10 "deep" self ["mv"; "file4.txt"; "dir1/f"]).2
    = cur_dir self.
Proof.
  intros self. split.
  - apply (cmd_exec_frame 10 "deep" self ["cd"; "dir1"]). discriminate.
  - apply (cmd_exec_frame 10 "deep" self ["mv"; "file4.txt"; "dir1/f"]).
    discriminate.
Defined.

(** ** What [mv] never does *)

Section MoveFrame.
Implicit Types (h : Heap) (self : App).

Lemma pop_child_nodes h parent key h1 n :
  pop_child h parent key = Some h1 →
  length h1 = length h
  ∧ name <$> h1 !! n = name <$> h !! n
  ∧ is_dir <$> h1 !! n = is_dir <$> h !! n.
Proof.
  unfold pop_child. destruct (h !! parent) as [pn|] eqn:Hp; [|done].
  destruct (Dict.pop key (children pn)) as [d|]; [|done]. intros [= <-].
  pose proof (lookup_lt_Some _ _ _ Hp). split; [apply length_insert|].
  destruct (decide (parent = n)) as [<-|?].
  - rewrite list_lookup_insert_eq by done. by rewrite Hp.
  - by rewrite list_lookup_insert_ne.
Qed.

Lemma rename_nodes h node nm n :
  length (rename h node nm) = length h
  ∧ (n ≠ node → name <$> rename h node nm !! n = name <$> h !! n)
  ∧ is_dir <$> rename h node nm !! n = is_dir <$> h !! n.
Proof.
  unfold rename. destruct (h !! node) as [nd|] eqn:Hn; [|done].
  pose proof (lookup_lt_Some _ _ _ Hn). split; [apply length_insert|].
  destruct (decide (node = n)) as [<-|?].
  - rewrite list_lookup_insert_eq by done. by rewrite Hn.
  - by rewrite list_lookup_insert_ne.
Qed.

Lemma add_child_nodes h parent child n :
  length (add_child h parent child) = length h
  ∧ name <$> add_child h parent child !! n = name <$> h !! n
  ∧ is_dir <$> add_child h parent child !! n = is_dir <$> h !! n.
Proof.
  unfold add_child. destruct (h !! parent) as [pn|] eqn:Hp; [|done].
  destruct (h !! child) as [cn|]; [|done].
  pose proof (lookup_lt_Some _ _ _ Hp). split; [apply length_insert|].
  destruct (decide (parent = n)) as [<-|?].
  - rewrite list_lookup_insert_eq by done. by rewrite Hp.
  - by rewrite list_lookup_insert_ne.
Qed.
End MoveFrame.

(** X5: whatever its arguments and however it ends, [mv] makes no node and
    drops none from the store, changes no directory flag, leaves [cur_dir]
    alone, and changes the name of no node but the one its source resolves
    to. *)
Theorem mv_cmd_frame (self : App) (arg : list string) (n : nat) :
  let self' := (_mv_cmd self arg).2 in
  length (heap self') = length (heap self)
  ∧ is_dir <$> heap self' !! n = is_dir <$> heap self !! n
  ∧ cur_dir self' = cur_dir self
  ∧ (_find_node_by_path (heap self)
       (split "/" (strip "/" (default EmptyString (head arg)))) ≠ Some n →
     name <$> heap self' !! n = name <$> heap self !! n).
Proof.
  intros self'. subst self'. unfold _mv_cmd.
  destruct arg as [|a0 [|a1 rest]]; [done..|]. simpl head. simpl default.
  destruct (_find_node_by_path (heap self) (split "/" (strip "/" a0)))
    as [s|] eqn:Hs; [|done].
  destruct (_find_node_by_path (heap self) (split "/" (strip "/" a1)));
    [done|].
  destruct (_find_node_by_path (heap self)
              (but_last (split "/" (strip "/" a0)))) as [sp|]; [|done].
  destruct (pop_child (heap self) sp _) as [h1|] eqn:Hpop; [|done].
  destruct (pop_child_nodes _ _ _ _ n Hpop) as (L1 & N1 & D1).
  destruct (_find_node_by_path h1 _) as [dp|]; [|by simpl].
  simpl.
  destruct (add_child_nodes
              (rename h1 s (last_of (split "/" (strip "/" a1)))) dp s n)
    as (L3 & N3 & D3).
  destruct (rename_nodes h1 s (last_of (split "/" (strip "/" a1))) n)
    as (L2 & N2 & D2).
  split_and!; [congruence|congruence|done|].
  intros Hn. rewrite N3, N2, N1; [done|]. congruence.
Qed.

Lemma mv_cmd_frame_witness :
  let self := init test_members in
  let self' := (_mv_cmd self ["file4.txt"; "dir1/moved"]).2 in
  _find_node_by_path (heap self) (split "/" (strip "/" "file4.txt")) ≠ Some 1
  ∧ name <$> heap self' !! 1 = name <$> heap self !! 1.
Proof.
  intros self self'.
  assert (H : _find_node_by_path (heap self) (split "/" (strip "/" "file4.txt"))
              ≠ Some 1) by (vm_compute; discriminate).
  split; [exact H|].
  exact (proj2 (proj2 (proj2
           (mv_cmd_frame self ["file4.txt"; "dir1/moved"] 1))) H).
Defined.

(** ** The current directory *)

Section CurDir.
Implicit Types (self : App) (arg : list string).

Lemma rstrip_head (c a : ascii) (s r : string) :
  rstrip c s = String a r → starts_with a s = true.
Proof.
  destruct s as [|b s]; [done|]. rewrite rstrip_cons.
  destruct (rstrip c s); [destruct (Ascii.eqb b c)|]; intros [= -> _];
    simpl; apply Ascii.eqb_refl.
Qed.

Lemma starts_with_eq (a : ascii) (s : string) :
  starts_with a s = true → ∃ r, s = String a r.
Proof.
  destruct s as [|b s]; [done|]. simpl. intros ->%Ascii.eqb_eq. eauto.
Qed.

(** Going up from a directory that begins with a slash. *)
Lemma parent_dir_rooted (d : string) :
  starts_with "/" d = true →
  starts_with "/"
    (or_else (join "/" (but_last (split "/" (rstrip "/" d)))) "/") = true.
Proof.
  intros Hd. destruct (rstrip "/" d) as [|a r] eqn:Hr; [done|].
  pose proof (rstrip_head _ _ _ _ Hr) as Ha.
  apply starts_with_eq in Hd as [d' ->].
  apply starts_with_eq in Ha as [r' [= <- _]].
  change (split "/" (String "/" r)) with (EmptyString :: split "/" r).
  pose proof (split_nonempty "/" r).
  destruct (split "/" r) as [|w [|w' ws]]; [done|done|].
  unfold but_last. simpl removelast.
  destruct (removelast (w' :: ws)) as [|y l]; done.
Qed.

Lemma cd_cmd_rooted self arg :
  starts_with "/" (cur_dir self) = true →
  starts_with "/" (cur_dir (_cd_cmd self arg).2) = true.
Proof.
  intros Hd. unfold _cd_cmd. destruct arg as [|a rest]; [done|].
  repeat case_match; simpl; try done. by apply parent_dir_rooted.
Qed.
End CurDir.

(** X6: [cur_dir] begins with a slash and keeps doing so: it does at the
    start, and no dispatch of any command line changes that. *)
Theorem cur_dir_rooted (max_depth : nat) (recursion_msg : string)
    (ms : list member) (self : App) (lines : list string) :
  starts_with "/" (cur_dir (init ms)) = true
  ∧ (starts_with "/" (cur_dir self) = true →
     starts_with "/"
       (cur_dir (_cmd_exec max_depth recursion_msg self lines).2) = true).
Proof.
  split; [done|]. intros Hd. rewrite cmd_exec_state.
  destruct lines as [|l0 args]; [done|]. simpl.
  destruct (commands max_depth (strip_ws l0)) as [handler|] eqn:Hc; [|done].
  apply commands_cases in Hc
    as [[_ ->]|[[_ ->]|[[_ ->]|[[_ ->]|[_ ->]]]]].
  - by rewrite ls_cmd_state.
  - by apply cd_cmd_rooted.
  - by rewrite mv_cmd_cur_dir.
  - by rewrite tree_cmd_state.
  - done.
Qed.

Lemma cur_dir_rooted_witness :
  let self := (_cd_cmd (init [("a/b/", true)]) ["a/b"]).2 in
  starts_with "/" (cur_dir self) = true
  ∧ starts_with "/" (cur_dir (_cmd_exec 10 "deep" self ["cd"; ".."]).2) = true.
Proof.
  intros self.
  assert (H : starts_with "/" (cur_dir self) = true) by (vm_compute; reflexivity).
  split; [exact H|].
  exact (proj2 (cur_dir_rooted 10 "deep" [] self ["cd"; ".."]) H).
Defined.

(** ** [cd]: where it lands *)

Section ChangeDir.
Implicit Types (self : App) (a : string) (rest : list string).

Lemma strip_cons_sep (c : ascii) (s : string) :
  strip c (String c s) = strip c s.
Proof.
  unfold strip. rewrite rstrip_cons.
  destruct (rstrip c s) as [|b r]; simpl; by rewrite Ascii.eqb_refl.
Qed.

Lemma rstrip_app_fix (c : ascii) (x t : string) :
  rstrip c t = t → t ≠ EmptyString → rstrip c (x +:+ t) = x +:+ t.
Proof.
  intros Ht Hne. induction x as [|a x IH]; [done|].
  rewrite string_app_cons, rstrip_cons, IH.
  destruct (x +:+ t) eqn:E; [|done]. by destruct x, t.
Qed.

Lemma lstrip_app_fix (c : ascii) (p y : string) :
  lstrip c p = p → p ≠ EmptyString → lstrip c (p +:+ y) = p +:+ y.
Proof.
  destruct p as [|a p]; [done|]. intros Hp _.
  pose proof (lstrip_head c _ _ _ Hp) as Hne.
  rewrite string_app_cons. simpl. by rewrite (proj2 (Ascii.eqb_neq a c) Hne).
Qed.

Lemma lstrip_strip (c : ascii) (s : string) : lstrip c (strip c s) = strip c s.
Proof. unfold strip. apply lstrip_idem. Qed.

(** The path that [cd] looks up for a target, and where a [cd] that returns
    the empty string and does not go up lands. *)
Lemma cd_cmd_success self a rest :
  strip "/" a ≠ ".." →
  (_cd_cmd self (a :: rest)).1 = Return EmptyString →
  let new_dir :=
    strip "/" (rstrip "/" (cur_dir self) +:+ "/" +:+ strip "/" a) in
  (_cd_cmd self (a :: rest)).2 = set_cur_dir self ("/" +:+ new_dir)
  ∧ ∃ n nd, _find_node_by_path (heap self) (split "/" new_dir) = Some n
            ∧ heap self !! n = Some nd ∧ is_dir nd = true.
Proof.
  intros Hup. unfold _cd_cmd. cbv zeta.
  rewrite decide_False by done.
  rewrite decide_False by apply strip_not_sep.
  destruct (_find_node_by_path (heap self) _) as [n|]; [|by intros [=]].
  destruct (heap self !! n) as [nd|] eqn:Hn; [|by intros [=]].
  destruct (is_dir nd) eqn:Hd; [|by intros [=]].
  intros _. split; [done|]. eauto.
Qed.
End ChangeDir.

(** X7: when [cd] with a target other than the two dots returns the empty
    string, [cur_dir] afterwards is a slash followed by a stripped path that
    resolves, from the root, to a node of the unchanged store that is a
    directory; that is the node [ls] and [tree] show when they get no
    argument. *)
Theorem cd_lands_on_directory (self : App) (a : string) (rest : list string) :
  strip "/" a ≠ ".." →
  (_cd_cmd self (a :: rest)).1 = Return EmptyString →
  let self' := (_cd_cmd self (a :: rest)).2 in
  heap self' = heap self
  ∧ starts_with "/" (cur_dir self') = true
  ∧ ∃ n nd, _find_node_by_path (heap self') (path_parts (cur_dir self')) = Some n
            ∧ heap self' !! n = Some nd ∧ is_dir nd = true.
Proof.
  intros Hup Hres.
  destruct (cd_cmd_success self a rest Hup Hres) as (-> & n & nd & Hf & Hn & Hd).
  simpl. split_and!; [done|done|]. exists n, nd. split_and!; [|done..].
  unfold path_parts.
  change ("/" +:+ ?x) with (String "/" x). by rewrite strip_cons_sep, strip_idem.
Qed.

Lemma cd_lands_on_directory_witness :
  let self := (_cd_cmd (init [("a/b/c", false)]) ["a"]).2 in
  let self' := (_cd_cmd self ["/b/"]).2 in
  cur_dir self' = "/a/b"
  ∧ ∃ n nd, _find_node_by_path (heap self') (path_parts (cur_dir self')) = Some n
            ∧ heap self' !! n = Some nd ∧ is_dir nd = true.
Proof.
  intros self self'. split; [vm_compute; reflexivity|].
  apply (cd_lands_on_directory self "/b/" []);
    [vm_compute; discriminate | vm_compute; reflexivity].
Defined.

(** X8: a [cd] that answers with a message changes nothing. *)
Theorem cd_error_keeps_state (self : App) (arg : list string) :
  (_cd_cmd self arg).1 ≠ Return EmptyString → (_cd_cmd self arg).2 = self.
Proof. unfold _cd_cmd. repeat case_match; simpl; done. Qed.

Lemma cd_error_keeps_state_witness :
  let self := init test_members in
  (_cd_cmd self ["dir1"]).1 = Return "Directory not found: dir1"
  ∧ (_cd_cmd self ["dir1"]).2 = self.
Proof.
  intros self. split; [vm_compute; reflexivity|].
  apply (cd_error_keeps_state self ["dir1"]). vm_compute. discriminate.
Defined.

(** X9: down one level and up again.  From a current directory that is a
    slash followed by a stripped path, a [cd] to a target of one part that
    returns the empty string, followed by [cd ..], ends in the state it
    started from. *)
Theorem cd_child_then_up (self : App) (a : string) (rest rest' : list string)
    (p : string) :
  cur_dir self = String "/" p →
  strip "/" p = p →
  strip "/" a ≠ EmptyString →
  strip "/" a ≠ ".." →
  mem_char "/" (strip "/" a) = false →
  (_cd_cmd self (a :: rest)).1 = Return EmptyString →
  _cd_cmd (_cd_cmd self (a :: rest)).2 (".." :: rest')
  = (Return EmptyString, self).
Proof.
  intros Hcur Hp Ht Hup Hslash Hres.
  destruct (cd_cmd_success self a rest Hup Hres) as (-> & _).
  set (t := strip "/" a) in *.
  assert (Hrt : rstrip "/" (String "/" t) = String "/" t).
  { rewrite rstrip_cons. unfold t. rewrite rstrip_strip. fold t. by destruct t. }
  set (R := rstrip "/" (cur_dir self)).
  assert (HR : R = EmptyString ∧ p = EmptyString ∨ R = String "/" p ∧ p ≠ EmptyString).
  { unfold R. rewrite Hcur, rstrip_cons.
    assert (rstrip "/" p = p) as -> by (by rewrite <- Hp, rstrip_strip).
    destruct p; [by left|by right]. }
  assert (Hnew : "/" +:+ strip "/" (R +:+ "/" +:+ t) = R +:+ String "/" t).
  { destruct HR as [[-> ->]|[-> Hpne]].
    - change (EmptyString +:+ "/" +:+ t) with (String "/" t).
      rewrite strip_cons_sep. unfold t. by rewrite strip_idem.
    - change (String "/" p +:+ "/" +:+ t) with (String "/" (p +:+ String "/" t)).
      rewrite strip_cons_sep. unfold strip at 1.
      rewrite (rstrip_app_fix "/" p (String "/" t)) by done.
      rewrite lstrip_app_fix; [done| |done].
      by rewrite <- Hp, lstrip_strip. }
  rewrite Hnew. unfold _cd_cmd. cbv zeta.
  change (strip "/" "..") with "..". rewrite decide_True by done.
  unfold set_cur_dir at 1 2. simpl cur_dir. simpl heap.
  rewrite decide_True.
  2:{ destruct HR as [[-> _]|[-> _]].
      - change (EmptyString +:+ String "/" t) with (String "/" t).
        intros [= E]. by destruct Ht.
      - change (String "/" p +:+ String "/" t)
          with (String "/" (p +:+ String "/" t)).
        intros [= E]. by destruct p. }
  rewrite (rstrip_app_fix "/" R (String "/" t)) by done.
  rewrite split_app, (split_no_sep "/" t Hslash).
  unfold but_last. rewrite removelast_last.
  change "/"%string with (String "/" EmptyString). rewrite join_split.
  f_equal. destruct self as [h d]. simpl in *. f_equal.
  destruct HR as [[-> ->]|[-> _]]; by subst d.
Qed.

Lemma cd_child_then_up_witness :
  let self := (_cd_cmd (init [("a/b/c", false)]) ["a"]).2 in
  cur_dir self = "/a"
  ∧ (_cd_cmd self ["b"]).1 = Return EmptyString
  ∧ _cd_cmd (_cd_cmd self ["b"]).2 [".."] = (Return EmptyString, self).
Proof.
  intros self.
  assert (Hc : cur_dir self = String "/" "a") by (vm_compute; reflexivity).
  assert (Hr : (_cd_cmd self ["b"]).1 = Return EmptyString)
    by (vm_compute; reflexivity).
  split; [exact Hc|]. split; [exact Hr|].
  apply (cd_child_then_up self "b" [] [] "a" Hc);
    [reflexivity | discriminate | discriminate | reflexivity | exact Hr].
Defined.

(** ** More on [_build_tree] *)

Section BuildMore.
Implicit Types (h : Heap) (ms : list member) (m : member) (p : list string).

Lemma filter_nonempty_id p :
  EmptyString ∉ p → filter (λ s, s ≠ EmptyString) p = p.
Proof.
  induction p as [|k p IH]; [done|]. intros [Hk Hp]%not_elem_of_cons.
  rewrite filter_cons_True by done. by rewrite IH.
Qed.

(** The node at the end of a walk from the root carries the last key. *)
Lemma walk_name h p n nd :
  WF h → p ≠ [] → walk h root_node p = Some n → h !! n = Some nd →
  name nd = last_of p.
Proof.
  intros Hwf Hp Hw Hn. destruct p as [|k p _] using rev_ind; [done|].
  apply walk_snoc in Hw as (y & _ & E%get_child_edge).
  destruct (wf_child h Hwf _ _ _ E) as (cd & Hcd & <-).
  unfold last_of. rewrite last_last. congruence.
Qed.

(** Nothing is made for a path that is there. *)
Lemma build_parts_existing parts h cur idx len d x :
  walk h cur parts = Some x → build_parts h cur idx len parts d = h.
Proof.
  revert cur idx. induction parts as [|part rest IH]; intros cur idx; [done|].
  simpl. destruct (get_child h cur part) as [c|] eqn:E; simpl; [|done].
  rewrite E. apply IH.
Qed.

Lemma prefix_walk h n p q x :
  p `prefix_of` q → walk h n q = Some x → is_Some (walk h n p).
Proof.
  intros [r ->]. rewrite walk_app. destruct (walk h n p); [eauto|done].
Qed.

Lemma last_of_elem (p : list string) : p ≠ [] → last_of p ∈ p.
Proof.
  destruct p as [|k p _] using rev_ind; [done|]. intros _.
  unfold last_of. rewrite last_last. apply elem_of_app. right. left.
Qed.
End BuildMore.

(** X10: every member can be found again under its own name: when no part
    of its path is empty, the path resolves in the built tree, to a node that
    carries the last part as its name and the flag of the first member whose
    path goes through it. *)
Theorem build_member_resolves (ms : list member) (m : member) :
  m ∈ ms → EmptyString ∉ member_parts m →
  ∃ n nd, _find_node_by_path (_build_tree ms) (member_parts m) = Some n
          ∧ _build_tree ms !! n = Some nd
          ∧ name nd = last_of (member_parts m)
          ∧ first_flag ms (member_parts m) = Some (is_dir nd).
Proof.
  intros Hin Hne.
  destruct (build_tree_built ms) as [Hwf Hroot Hreach Hflag Hcov].
  destruct (Hcov m (member_parts m) Hin) as [n Hw]; [done|].
  destruct (walk_in_store _ _ _ _ Hwf (wf_root _ Hwf) Hw) as [nd Hn].
  assert (Hp : member_parts m ≠ []) by apply split_nonempty.
  exists n, nd. split_and!.
  - unfold _find_node_by_path. by rewrite find_from_walk, filter_nonempty_id.
  - done.
  - by eapply walk_name.
  - by eapply Hflag.
Qed.

Lemma build_member_resolves_witness :
  ∃ n nd, _find_node_by_path (_build_tree test_members)
            (member_parts ("dir1/file2.txt", false)) = Some n
          ∧ _build_tree test_members !! n = Some nd
          ∧ name nd = last_of (member_parts ("dir1/file2.txt", false))
          ∧ first_flag test_members (member_parts ("dir1/file2.txt", false))
            = Some (is_dir nd).
Proof.
  apply (build_member_resolves test_members ("dir1/file2.txt", false)).
  - vm_compute. do 2 right. left.
  - change (member_parts ("dir1/file2.txt", false))
      with (split "/" (strip "/" "dir1/file2.txt")).
    replace (split "/" (strip "/" "dir1/file2.txt")) with ["dir1"; "file2.txt"]
      by (vm_compute; reflexivity).
    rewrite !not_elem_of_cons. split_and!; try discriminate.
    apply not_elem_of_nil.
Defined.

(** What the condition is for: a member with a doubled slash gets a node
    with the empty name on its way, which no look-up goes through. *)
Example build_member_doubled_slash :
  _find_node_by_path (_build_tree [("a//b", false)]) (member_parts ("a//b", false))
  = None
  ∧ walk (_build_tree [("a//b", false)]) root_node ["a"; EmptyString; "b"] = Some 3.
Proof. vm_compute. done. Qed.

(** X11: a member whose path is the beginning of the path of a member that
    came before it adds nothing and changes nothing: the store is the same
    with and without it. *)
Theorem build_member_absorbed (ms : list member) (m m' : member) :
  m' ∈ ms → member_parts m `prefix_of` member_parts m' →
  _build_tree (ms ++ [m]) = _build_tree ms.
Proof.
  intros Hin Hpre. unfold _build_tree. rewrite fold_left_app. simpl.
  fold (_build_tree ms).
  destruct (build_tree_built ms) as [Hwf Hroot Hreach Hflag Hcov].
  destruct (Hcov m' (member_parts m) Hin Hpre) as [x Hx].
  unfold build_member. by eapply build_parts_existing.
Qed.

Lemma build_member_absorbed_witness :
  _build_tree (test_members ++ [("dir1", true)]) = _build_tree test_members.
Proof.
  apply (build_member_absorbed test_members ("dir1", true) ("dir1/file1.txt", false)).
  - vm_compute. right. left.
  - exists ["file1.txt"]. vm_compute. reflexivity.
Defined.

(** ** Words *)

#[local] Arguments isspace : simpl never.

Section Words.
Implicit Types (s w : string).

Lemma rstrip_ws_cons (a : ascii) s :
  rstrip_ws (String a s) =
    match rstrip_ws s with
    | EmptyString => if isspace a then EmptyString else String a EmptyString
    | r => String a r
    end.
Proof. done. Qed.

Lemma starts_word_rstrip s : starts_word (rstrip_ws s) = starts_word s.
Proof.
  destruct s as [|a s]; [done|]. rewrite rstrip_ws_cons.
  destruct (rstrip_ws s); unfold starts_word; [|done].
  destruct (isspace a) eqn:E; [done|].
  change (negb (isspace a) = true). by rewrite E.
Qed.

Lemma split_ws_rstrip s : split_ws (rstrip_ws s) = split_ws s.
Proof.
  induction s as [|a s IH]; [done|]. rewrite rstrip_ws_cons.
  pose proof (starts_word_rstrip s) as Hw.
  destruct (rstrip_ws s) as [|b r] eqn:Hr.
  - simpl in IH, Hw. simpl split_ws at 2. rewrite <- Hw, <- IH.
    destruct (isspace a) eqn:E; simpl; by rewrite ?E.
  - simpl split_ws at 2. rewrite <- Hw, <- IH. done.
Qed.

Lemma split_ws_lstrip s : split_ws (lstrip_ws s) = split_ws s.
Proof.
  induction s as [|a s IH]; [done|]. simpl.
  destruct (isspace a) eqn:E; [done|]. simpl. by rewrite E.
Qed.

(** [line.strip().split()] is [line.split()]. *)
Lemma split_ws_strip s : split_ws (strip_ws s) = split_ws s.
Proof. unfold strip_ws. by rewrite split_ws_lstrip, split_ws_rstrip. Qed.

Lemma split_ws_blank s : blank s = true → split_ws s = [].
Proof.
  induction s as [|a s IH]; [done|]. simpl.
  intros [-> Hs]%andb_true_iff. auto.
Qed.

Lemma split_ws_nil_blank s : split_ws s = [] → blank s = true.
Proof.
  induction s as [|a s IH]; [done|]. simpl.
  destruct (isspace a); [auto|].
  destruct (starts_word s); [by destruct (split_ws s)|done].
Qed.

(** The words have no white space in them and are not empty. *)
Lemma split_ws_solid s :
  Forall (λ w, solid w = true ∧ w ≠ EmptyString) (split_ws s).
Proof.
  induction s as [|a s IH]; simpl; [constructor|].
  destruct (isspace a) eqn:Ha; [done|].
  destruct (starts_word s).
  - destruct (split_ws s) as [|w ws].
    + repeat constructor; simpl; [by rewrite Ha|done].
    + apply Forall_cons in IH as [[Hw _] Hws]. constructor; [|done].
      simpl. by rewrite Ha, Hw.
  - constructor; [|done]. simpl. by rewrite Ha.
Qed.

Lemma rstrip_ws_solid w : solid w = true → rstrip_ws w = w.
Proof.
  induction w as [|a w IH]; [done|]. simpl solid.
  intros [Ha%negb_true_iff Hw]%andb_true_iff.
  rewrite rstrip_ws_cons, (IH Hw), Ha. by destruct w.
Qed.

Lemma strip_ws_solid w : solid w = true → strip_ws w = w.
Proof.
  intros Hw. unfold strip_ws. rewrite (rstrip_ws_solid w Hw).
  destruct w as [|a w]; [done|]. simpl in *.
  apply andb_true_iff in Hw as [Ha%negb_true_iff _]. by rewrite Ha.
Qed.

Lemma split_ws_head_strip s l0 args :
  split_ws s = l0 :: args → strip_ws l0 = l0.
Proof.
  intros E. pose proof (split_ws_solid s) as H. rewrite E in H.
  apply Forall_cons in H as [[Hw _] _]. by apply strip_ws_solid.
Qed.
End Words.

(** ** The start-up script *)

Section Script.
Variable max_depth : nat.
Variable recursion_msg : string.
Implicit Types (self : App) (script : list string) (line : string).

Local Abbreviation run_script := (run_script max_depth recursion_msg).
Local Abbreviation _cmd_exec := (_cmd_exec max_depth recursion_msg).

Lemma run_script_cons self line script :
  run_script self (line :: script) =
    match (_cmd_exec self (split_ws line)).1 with
    | SystemExit => Exits (_cmd_exec self (split_ws line)).2
    | _ => run_script (_cmd_exec self (split_ws line)).2 script
    end.
Proof.
  simpl. rewrite split_ws_strip.
  by destruct (_cmd_exec self (split_ws line)) as [[]].
Qed.

Lemma run_script_blank self line script :
  blank line = true → run_script self (line :: script) = run_script self script.
Proof. intros Hb. by rewrite run_script_cons, (split_ws_blank line Hb). Qed.

(** A line goes on to the next one unless its first word is [exit]. *)
Lemma run_script_step self line script :
  ¬ exit_line line →
  run_script self (line :: script)
  = run_script (_cmd_exec self (split_ws line)).2 script.
Proof.
  intros Hne. rewrite run_script_cons.
  pose proof (cmd_exec_outcome max_depth recursion_msg self (split_ws line)) as Ho.
  destruct (_cmd_exec self (split_ws line)).1; [done|done|].
  destruct Hne. unfold exit_line.
  destruct (split_ws line) as [|l0 args] eqn:E; [done|]. simpl in *.
  by rewrite (split_ws_head_strip _ _ _ E) in Ho.
Qed.

Lemma run_script_exit self line script :
  exit_line line → run_script self (line :: script) = Exits self.
Proof.
  unfold exit_line. intros He. rewrite run_script_cons.
  destruct (split_ws line) as [|l0 args] eqn:E; [done|].
  injection He as ->. by rewrite cmd_exec_exit.
Qed.

Lemma run_script_WF self script :
  WF (heap self) → Forall (λ line, ¬ moves_root line) script →
  WF (heap (end_state (run_script self script))).
Proof.
  intros Hwf Hall. revert self Hwf.
  induction Hall as [|line script Hline _ IH]; intros self Hwf; [done|].
  assert (Hwf' : WF (heap (_cmd_exec self (split_ws line)).2)).
  { apply cmd_exec_WF; [done|]. intros l0 args E Hmv.
    rewrite (split_ws_head_strip _ _ _ E) in Hmv. subst l0.
    destruct args as [|a0 rest]; [done|]. simpl. intros Hs.
    apply Hline. by exists a0, rest. }
  rewrite run_script_cons.
  destruct (_cmd_exec self (split_ws line)).1; auto.
Qed.
End Script.

(** X12: blank lines of the start-up script do nothing: the script ends the
    same way, in the same state, with and without them. *)
Theorem script_blank_lines (max_depth : nat) (recursion_msg : string)
    (self : App) (script : list string) :
  run_script max_depth recursion_msg self (filter (λ l, blank l = false) script)
  = run_script max_depth recursion_msg self script.
Proof.
  revert self. induction script as [|line script IH]; intros self; [done|].
  destruct (blank line) eqn:Hb.
  - rewrite filter_cons_False by (by rewrite Hb).
    by rewrite run_script_blank.
  - rewrite filter_cons_True by done.
    rewrite !run_script_cons.
    destruct (_cmd_exec _ _ _ _).1; by rewrite ?IH.
Qed.

(** X13: nothing but [exit] stops the start-up script.  While no line has
    [exit] as its first word the script runs to its end, whatever the lines
    are and whatever the commands answer; the first line that has ends it, in
    the state the lines before it left, and the lines after it are not run. *)
Theorem script_stops_at_exit (max_depth : nat) (recursion_msg : string)
    (self : App) (before after : list string) (line : string) :
  Forall (λ l, ¬ exit_line l) before →
  ∃ s, run_script max_depth recursion_msg self before = Continues s
       ∧ (exit_line line →
          run_script max_depth recursion_msg self (before ++ line :: after)
          = Exits s).
Proof.
  intros Hall. revert self.
  induction Hall as [|l before Hl _ IH]; intros self.
  - exists self. split; [done|]. intros He. by apply run_script_exit.
  - destruct (IH (_cmd_exec max_depth recursion_msg self (split_ws l)).2)
      as (s & Hs & Hexit).
    exists s. simpl app. by rewrite !run_script_step.
Qed.

Lemma script_stops_at_exit_witness :
  let self := init test_members in
  let before := ["ls"; "frobnicate x"; "mv / x/y"; "mv dir2 dir9"] in
  Forall (λ l, ¬ exit_line l) before
  ∧ ∃ s, run_script 10 "deep" self before = Continues s
         ∧ run_script 10 "deep" self (before ++ " exit now" :: ["mv dir9 dir2"])
           = Exits s.
Proof.
  intros self before.
  assert (H : Forall (λ l, ¬ exit_line l) before)
    by (repeat constructor; vm_compute; discriminate).
  split; [exact H|].
  destruct (script_stops_at_exit 10 "deep" self before ["mv dir9 dir2"]
              " exit now" H) as (s & Hs & He).
  exists s. split; [exact Hs|]. apply He. vm_compute. reflexivity.
Defined.

(** X14: the tree stays a tree through the start-up script: after the tree
    is built and any script is run on it in which no line asks [mv] to move
    the root, every child is filed under its own name, siblings have
    different names, no node has two parents, and one path leads from the
    root to each node it reaches. *)
Theorem script_keeps_tree (max_depth : nat) (recursion_msg : string)
    (ms : list member) (script : list string) :
  Forall (λ line, ¬ moves_root line) script →
  is_tree (heap (end_state (run_script max_depth recursion_msg (init ms) script))).
Proof.
  intros Hall. apply WF_is_tree, run_script_WF; [|done]. apply build_tree_WF.
Qed.

Lemma script_keeps_tree_witness :
  let script := ["cd dir1"; "mv file4.txt dir2/f"; "tree"; "mv dir2 dir2/x"] in
  Forall (λ line, ¬ moves_root line) script
  ∧ is_tree (heap (end_state (run_script 10 "deep" (init test_members) script))).
Proof.
  intros script.
  assert (H : Forall (λ line, ¬ moves_root line) script).
  { repeat constructor; intros (a0 & rest & E & Hs); vm_compute in E;
      try discriminate; injection E as <- <-; vm_compute in Hs; discriminate. }
  split; [exact H|]. exact (script_keeps_tree 10 "deep" test_members script H).
Defined.

(** ** Names *)

Section Names.
Variable max_depth : nat.
Variable recursion_msg : string.
Implicit Types (h : Heap) (self : App).

Lemma last_split_plain (s : string) :
  mem_char "/" (last_of (split "/" s)) = false.
Proof.
  pose proof (split_pieces "/" s) as H. rewrite Forall_forall in H.
  apply H, last_of_elem, split_nonempty.
Qed.

Lemma build_tree_plain_names (ms : list member) : plain_names (_build_tree ms).
Proof.
  intros n nd Hn Hroot.
  destruct (build_tree_built ms) as [Hwf _ Hreach Hflag _].
  destruct (Hreach n (lookup_lt_Some _ _ _ Hn)) as [p Hp].
  assert (Hne : p ≠ []).
  { intros ->. injection Hp as <-. done. }
  rewrite (walk_name _ p n nd Hwf Hne Hp Hn).
  pose proof (Hflag p n nd Hne Hp Hn) as Hf.
  apply first_flag_Some in Hf as (m & _ & Hpre%flag_of_Some).
  pose proof (split_pieces "/" (strip "/" m.1)) as H. rewrite Forall_forall in H.
  apply H. fold (member_parts m). destruct Hpre as [r ->].
  apply elem_of_app. left. by apply last_of_elem.
Qed.

Lemma rename_lookup h node nm n nd' :
  rename h node nm !! n = Some nd' →
  (n = node ∧ name nd' = nm) ∨ h !! n = Some nd'.
Proof.
  unfold rename. destruct (h !! node) as [nd|] eqn:Hn; [|by right].
  intros [(-> & <- & _)|[_ ?]]%list_lookup_insert_Some; [by left|by right].
Qed.

Lemma mv_cmd_plain_names self arg :
  plain_names (heap self) → plain_names (heap (_mv_cmd self arg).2).
Proof.
  intros Hpl. unfold _mv_cmd.
  destruct arg as [|a0 [|a1 rest]]; [done..|].
  destruct (_find_node_by_path (heap self) (split "/" (strip "/" a0)))
    as [s|]; [|done].
  destruct (_find_node_by_path (heap self) (split "/" (strip "/" a1)));
    [done|].
  destruct (_find_node_by_path (heap self)
              (but_last (split "/" (strip "/" a0)))) as [sp|]; [|done].
  destruct (pop_child (heap self) sp _) as [h1|] eqn:Hpop; [|done].
  assert (Hpl1 : plain_names h1).
  { intros n nd Hn Hroot.
    destruct (pop_child_nodes _ _ _ _ n Hpop) as (_ & N1 & _).
    rewrite Hn in N1. simpl in N1.
    destruct (heap self !! n) as [nd0|] eqn:Hn0; [|done].
    injection N1 as ->. by eapply Hpl. }
  destruct (_find_node_by_path h1 _) as [dp|]; [|done].
  simpl. intros n nd Hn Hroot.
  set (nm := last_of (split "/" (strip "/" a1))) in *.
  destruct (add_child_nodes (rename h1 s nm) dp s n) as (_ & N3 & _).
  rewrite Hn in N3. simpl in N3.
  destruct (rename h1 s nm !! n) as [nd2|] eqn:Hn2; [|done].
  injection N3 as ->.
  apply rename_lookup in Hn2 as [[_ ->]|Hn1]; [apply last_split_plain|].
  by eapply Hpl1.
Qed.

Lemma cmd_exec_plain_names self lines :
  plain_names (heap self) →
  plain_names (heap (_cmd_exec max_depth recursion_msg self lines).2).
Proof.
  intros Hpl. rewrite cmd_exec_state. destruct lines as [|l0 args]; [done|].
  destruct (commands max_depth (strip_ws l0)) as [handler|] eqn:Hc; [|done].
  apply commands_cases in Hc
    as [[Hn ->]|[[Hn ->]|[[Hn ->]|[[Hn ->]|[Hn ->]]]]].
  - by rewrite ls_cmd_state.
  - by rewrite cd_cmd_heap.
  - by apply mv_cmd_plain_names.
  - by rewrite tree_cmd_state.
  - done.
Qed.

Lemma run_script_plain_names self script :
  plain_names (heap self) →
  plain_names (heap (end_state (run_script max_depth recursion_msg self script))).
Proof.
  revert self. induction script as [|line script IH]; intros self Hpl; [done|].
  rewrite run_script_cons.
  pose proof (cmd_exec_plain_names self (split_ws line) Hpl).
  destruct (_cmd_exec _ _ _ _).1; auto.
Qed.
End Names.

(** X15: no name ever holds a slash: in the tree as built, and after any
    start-up script run on it, every node but the root has a name in which no
    slash occurs. *)
Theorem names_without_slash (max_depth : nat) (recursion_msg : string)
    (ms : list member) (script : list string) (n : nat) (nd : Node) :
  heap (end_state (run_script max_depth recursion_msg (init ms) script)) !! n
  = Some nd →
  n ≠ root_node →
  mem_char "/" (name nd) = false.
Proof.
  apply run_script_plain_names. apply build_tree_plain_names.
Qed.

Lemma names_without_slash_witness :
  let h := heap (end_state (run_script 10 "deep" (init test_members)
                              ["mv dir1/file1.txt dir2/a/b"; "mv dir2 top"])) in
  h !! 4 = Some (mkNode "top" false [("file3.txt", 5)])
  ∧ mem_char "/" "top" = false.
Proof.
  intros h.
  assert (H : h !! 4 = Some (mkNode "top" false [("file3.txt", 5)]))
    by (vm_compute; reflexivity).
  split; [exact H|].
  apply (names_without_slash 10 "deep" test_members
           ["mv dir1/file1.txt dir2/a/b"; "mv dir2 top"] 4 _ H).
  discriminate.
Defined.

(** ** A move that succeeds *)

Section MoveSuccess.
Implicit Types (h : Heap) (p q : list string).

(** A walk goes on as before when an edge is popped, unless it went over
    that edge. *)
Lemma pop_child_walk_keep h parent key s h1 n p x :
  WF h → get_child h parent key = Some s → pop_child h parent key = Some h1 →
  walk h n p = Some x →
  walk h1 n p = Some x ∨ ∃ q, walk h s q = Some x.
Proof.
  intros Hwf Hs Hpop.
  pose proof (pop_child_WF _ _ _ _ Hwf Hpop) as Hwf1.
  destruct (pop_child_shape _ _ _ _ Hwf Hpop) as (_ & He & _).
  revert n. induction p as [|k p IH]; intros n; simpl; [by left|].
  destruct (get_child h n k) as [c|] eqn:E; simpl; [|done]. intros Hw.
  destruct (decide (n = parent ∧ k = key)) as [[-> ->]|Hne].
  - right. exists p. congruence.
  - rewrite (edge_get_child h1 n k c Hwf1); [by apply IH|].
    apply He. split; [by apply get_child_edge|done].
Qed.

Lemma pop_child_get_child h parent key h1 n k c :
  WF h → pop_child h parent key = Some h1 →
  get_child h1 n k = Some c → get_child h n k = Some c.
Proof.
  intros Hwf Hpop E.
  pose proof (pop_child_walk h parent key h1 n [k] c Hwf Hpop) as H.
  simpl in H. rewrite E in H. specialize (H eq_refl).
  by destruct (get_child h n k).
Qed.

Lemma pop_child_popped h parent key h1 :
  WF h → pop_child h parent key = Some h1 → get_child h1 parent key = None.
Proof.
  intros Hwf Hpop.
  destruct (pop_child_shape _ _ _ _ Hwf Hpop) as (_ & He & _).
  destruct (get_child h1 parent key) as [c|] eqn:E; [|done].
  apply get_child_edge, He in E as [_ E]. naive_solver.
Qed.

(** Look-ups in the store after the renaming and [add_child]. *)
Lemma attach_get_child h s nm dp n k :
  is_Some (h !! s) → is_Some (h !! dp) →
  get_child (add_child (rename h s nm) dp s) n k
  = if decide (n = dp ∧ k = nm) then Some s else get_child h n k.
Proof.
  intros [cs Hs] [dn Hdp]. unfold get_child at 1.
  rewrite (attach_lookup h s nm dp cs dn n Hs Hdp). unfold get_child.
  destruct (h !! n) as [nd|] eqn:En; simpl.
  2:{ destruct (decide (n = dp ∧ k = nm)) as [[-> _]|_]; [congruence|done]. }
  destruct (decide (n = dp)) as [->|?].
  - rewrite dict_get_set. destruct (decide (nm = k)) as [->|?].
    + by rewrite decide_True.
    + rewrite decide_False; [done|]. naive_solver.
  - rewrite decide_False; [done|]. naive_solver.
Qed.

Lemma attach_walk h s nm dp n p x :
  is_Some (h !! s) → is_Some (h !! dp) → get_child h dp nm = None →
  walk h n p = Some x → walk (add_child (rename h s nm) dp s) n p = Some x.
Proof.
  intros Hs Hdp Hfree. revert n. induction p as [|k p IH]; intros n; simpl; [done|].
  destruct (get_child h n k) as [c|] eqn:E; simpl; [|done].
  rewrite attach_get_child by done.
  rewrite decide_False by (intros [-> ->]; congruence).
  rewrite E. simpl. apply IH.
Qed.

Lemma attach_walk_inv h s nm dp n p x :
  is_Some (h !! s) → is_Some (h !! dp) →
  walk (add_child (rename h s nm) dp s) n p = Some x →
  walk h n p = Some x
  ∨ ∃ p1 p2, p = p1 ++ nm :: p2 ∧ walk h n p1 = Some dp.
Proof.
  intros Hs Hdp. revert n. induction p as [|k p IH]; intros n; simpl; [by left|].
  rewrite attach_get_child by done.
  destruct (decide (n = dp ∧ k = nm)) as [[-> ->]|Hne].
  - intros _. right. by exists [], p.
  - destruct (get_child h n k) as [c|] eqn:E; simpl; [|done].
    intros [Hw|(p1 & p2 & -> & Hw)]%IH; [by left|].
    right. exists (k :: p1), p2. split; [done|]. simpl. by rewrite E.
Qed.

(** The parent of a node that a walk from the root reaches is another node. *)
Lemma child_not_parent h p parent key s :
  WF h → walk h root_node p = Some parent → get_child h parent key = Some s →
  s ≠ parent.
Proof.
  intros Hwf Hp Hs ->.
  assert (Hp' : walk h root_node (p ++ [key]) = Some parent).
  { apply walk_snoc. eauto. }
  destruct (walk_unique h root_node root_node _ _ _ Hwf
              (wf_root_top h Hwf) (wf_root_top h Hwf) Hp Hp') as [_ Heq].
  apply (f_equal length) in Heq. rewrite length_app in Heq. simpl in Heq. lia.
Qed.

(** No walk leaves a node without children. *)
Lemma walk_leaf h s nd q x :
  h !! s = Some nd → children nd = [] → walk h s q = Some x → q = [] ∧ x = s.
Proof.
  intros Hs Hc. destruct q as [|k q]; simpl; [by intros [= ->]|].
  unfold get_child. rewrite Hs. simpl. by rewrite Hc.
Qed.
End MoveSuccess.

(** X16: a move that goes through.  When the source is not the root and
    resolves, the destination does not resolve, and the parent of the
    destination resolves to a node that is neither the source nor below it,
    [mv] answers that the source moved; afterwards the destination resolves
    to the very node the source resolved to, the source path resolves to
    nothing, and the node has the last part of the destination as its name
    and the flag and the children it had. *)
Theorem mv_moves_node (self : App) (a0 a1 : string) (rest : list string)
    (src_node dest_parent : nat) (nd : Node) :
  let src_parts := split "/" (strip "/" a0) in
  let dest_parts := split "/" (strip "/" a1) in
  let r := _mv_cmd self (a0 :: a1 :: rest) in
  WF (heap self) →
  strip "/" a0 ≠ EmptyString →
  _find_node_by_path (heap self) src_parts = Some src_node →
  heap self !! src_node = Some nd →
  _find_node_by_path (heap self) dest_parts = None →
  _find_node_by_path (heap self) (but_last dest_parts) = Some dest_parent →
  (∀ q, walk (heap self) src_node q ≠ Some dest_parent) →
  r.1 = Return (a0 +:+ " moved to " +:+ a1 +:+ ".")
  ∧ _find_node_by_path (heap r.2) dest_parts = Some src_node
  ∧ _find_node_by_path (heap r.2) src_parts = None
  ∧ heap r.2 !! src_node
    = Some (mkNode (last_of dest_parts) (is_dir nd) (children nd)).
Proof.
  intros src_parts dest_parts r Hwf Hsrc Hs Hnd Hd Hdp Hbelow.
  set (h := heap self) in *.
  destruct (find_parent_child _ _ _ Hsrc Hs) as (sp & Hsp & Hc).
  fold src_parts in Hsp, Hc.
  destruct (pop_child_is_Some _ _ _ _ Hc) as [h1 Hpop].
  pose proof (pop_child_WF _ _ _ _ Hwf Hpop) as Hwf1.
  destruct (pop_child_shape _ _ _ _ Hwf Hpop) as (Hlen & He & _).
  (* the destination *)
  assert (Hdest : strip "/" a1 ≠ EmptyString).
  { intros E. unfold dest_parts in Hd. rewrite E in Hd. done. }
  pose proof (last_split_strip "/" a1 Hdest) as Hdl. fold dest_parts in Hdl.
  assert (Hdparts : dest_parts = but_last dest_parts ++ [last_of dest_parts])
    by apply but_last_last, split_nonempty.
  set (nm := last_of dest_parts) in *.
  assert (Hfree : get_child h dest_parent nm = None).
  { unfold _find_node_by_path in Hd, Hdp. rewrite Hdparts in Hd.
    rewrite find_from_snoc, Hdp in Hd by done. done. }
  assert (Hfree1 : get_child h1 dest_parent nm = None).
  { destruct (get_child h1 dest_parent nm) as [c|] eqn:E; [|done].
    apply (pop_child_get_child _ _ _ _ _ _ _ Hwf Hpop) in E. congruence. }
  (* the parent of the destination is still there *)
  assert (Hdp1 : _find_node_by_path h1 (but_last dest_parts) = Some dest_parent).
  { unfold _find_node_by_path in *. rewrite find_from_walk in *.
    destruct (pop_child_walk_keep _ _ _ _ _ _ _ _ Hwf Hc Hpop Hdp)
      as [?|[q Hq]]; [done|]. by destruct (Hbelow q). }
  assert (Hs1 : is_Some (h1 !! src_node)).
  { apply lookup_lt_is_Some. rewrite Hlen. by eapply lookup_lt_Some. }
  assert (Hd1 : is_Some (h1 !! dest_parent)) by (by eapply find_in_store).
  set (h3 := add_child (rename h1 src_node nm) dest_parent src_node).
  assert (Hr : r = (Return (a0 +:+ " moved to " +:+ a1 +:+ "."),
                    set_heap self h3)).
  { subst r. unfold _mv_cmd. fold src_parts dest_parts. fold h.
    by rewrite Hs, Hd, Hsp, Hpop, Hdp1. }
  rewrite Hr. simpl. split_and!.
  - done.
  - unfold _find_node_by_path in *. rewrite Hdparts, find_from_snoc by done.
    rewrite find_from_walk in *. unfold h3.
    rewrite (attach_walk h1 src_node nm dest_parent _ _ _ Hs1 Hd1 Hfree1 Hdp1).
    simpl. rewrite attach_get_child by done. by rewrite decide_True.
  - unfold _find_node_by_path in *.
    rewrite (but_last_last src_parts) in Hs |- * by apply split_nonempty.
    pose proof (last_split_strip "/" a0 Hsrc) as Hsl. fold src_parts in Hsl.
    rewrite find_from_walk, filter_app, filter_cons_True, filter_nil
      in Hs |- * by done.
    rewrite find_from_walk in Hsp, Hdp.
    destruct (walk h3 root_node _) as [y|] eqn:Hy; [|done]. exfalso.
    unfold h3 in Hy.
    apply (attach_walk_inv h1 src_node nm dest_parent _ _ _ Hs1 Hd1)
      in Hy as [Hy|(p1 & p2 & Heq & Hp1)].
    + apply walk_snoc in Hy as (m & Hm & Hy).
      apply (pop_child_walk _ _ _ _ _ _ _ Hwf Hpop) in Hm.
      assert (m = sp) as -> by congruence.
      rewrite (pop_child_popped _ _ _ _ Hwf Hpop) in Hy. done.
    + apply (pop_child_walk _ _ _ _ _ _ _ Hwf Hpop) in Hp1.
      destruct (walk_unique h root_node root_node _ _ _ Hwf
                  (wf_root_top h Hwf) (wf_root_top h Hwf) Hp1 Hdp) as [_ ->].
      rewrite Heq, walk_app, Hdp in Hs. simpl in Hs. by rewrite Hfree in Hs.
  - destruct Hs1 as [cs Hcs], Hd1 as [dn Hdn]. unfold h3.
    rewrite (attach_lookup h1 src_node nm dest_parent cs dn _ Hcs Hdn), Hcs.
    simpl. rewrite decide_True by done.
    assert (Hne : src_node ≠ dest_parent).
    { intros ->. by destruct (Hbelow []). }
    rewrite decide_False by done.
    assert (Hnsp : src_node ≠ sp).
    { unfold _find_node_by_path in Hsp. rewrite find_from_walk in Hsp.
      exact (child_not_parent h _ sp _ src_node Hwf Hsp Hc). }
    unfold pop_child in Hpop. destruct (h !! sp) as [pn|] eqn:Hpn; [|done].
    destruct (Dict.pop _ _) as [d|]; [|done]. injection Hpop as <-.
    rewrite list_lookup_insert_ne in Hcs by done.
    rewrite Hnd in Hcs. by injection Hcs as <-.
Qed.

Lemma mv_moves_node_witness :
  let self := init test_members in
  let r := _mv_cmd self ["file4.txt"; "dir1/file4.txt"] in
  WF (heap self)
  ∧ (∀ q, walk (heap self) 6 q ≠ Some 1)
  ∧ r.1 = Return "file4.txt moved to dir1/file4.txt."
  ∧ _find_node_by_path (heap r.2) (split "/" (strip "/" "dir1/file4.txt"))
    = Some 6
  ∧ _find_node_by_path (heap r.2) (split "/" (strip "/" "file4.txt")) = None.
Proof.
  intros self r.
  assert (Hwf : WF (heap self)) by apply build_tree_WF.
  assert (Hb : ∀ q, walk (heap self) 6 q ≠ Some 1).
  { intros q Hq.
    apply (walk_leaf _ _ (mkNode "file4.txt" false [])) in Hq as [_ Hq];
      [discriminate | vm_compute; reflexivity | reflexivity]. }
  split; [exact Hwf|]. split; [exact Hb|].
  destruct (mv_moves_node self "file4.txt" "dir1/file4.txt" [] 6 1
              (mkNode "file4.txt" false []) Hwf)
    as (H1 & H2 & H3 & _);
    [discriminate | vm_compute; reflexivity | vm_compute; reflexivity
    | vm_compute; reflexivity | vm_compute; reflexivity | exact Hb |].
  split_and!; [exact H1 | exact H2 | exact H3].
Defined.

(** ** The Enter key *)

Section Enter.
Implicit Types (s t w : string) (a c : ascii).

Lemma string_app_nonempty s a t : s +:+ String a t ≠ EmptyString.
Proof. by destruct s. Qed.

Lemma rstrip_ws_blank w : blank w = true → rstrip_ws w = EmptyString.
Proof.
  induction w as [|x w IH]; [done|]. simpl blank.
  intros [Hx Hw]%andb_true_iff. by rewrite rstrip_ws_cons, (IH Hw), Hx.
Qed.

Lemma rstrip_ws_app_blank t w :
  blank w = true → rstrip_ws (t +:+ w) = rstrip_ws t.
Proof.
  intros Hw. induction t as [|x t IH].
  - rewrite string_app_nil. by apply rstrip_ws_blank.
  - by rewrite string_app_cons, !rstrip_ws_cons, IH.
Qed.

Lemma rstrip_ws_solid_cons a t :
  isspace a = false → rstrip_ws (String a t) = String a (rstrip_ws t).
Proof. intros Ha. rewrite rstrip_ws_cons, Ha. by destruct (rstrip_ws t). Qed.

Lemma rstrip_ws_app_solid s a t :
  isspace a = false →
  rstrip_ws (s +:+ String a t) = s +:+ String a (rstrip_ws t).
Proof.
  intros Ha. induction s as [|x s IH].
  - rewrite !string_app_nil. by apply rstrip_ws_solid_cons.
  - rewrite !string_app_cons, rstrip_ws_cons, IH.
    pose proof (string_app_nonempty s a (rstrip_ws t)).
    by destruct (s +:+ String a (rstrip_ws t)).
Qed.

Lemma lstrip_ws_app_solid s a t :
  isspace a = false →
  lstrip_ws (s +:+ String a t) = lstrip_ws s +:+ String a t.
Proof.
  intros Ha. induction s as [|x s IH].
  - rewrite !string_app_nil. simpl. by rewrite Ha.
  - rewrite string_app_cons. simpl. by destruct (isspace x).
Qed.

Lemma rstrip_ws_idemp t : rstrip_ws (rstrip_ws t) = rstrip_ws t.
Proof.
  induction t as [|x t IH]; [done|]. rewrite rstrip_ws_cons.
  destruct (rstrip_ws t) as [|y r] eqn:Hr.
  - destruct (isspace x) eqn:Hx; [done|]. by rewrite rstrip_ws_cons, Hx.
  - by rewrite rstrip_ws_cons, IH.
Qed.

Lemma mem_char_rstrip_ws c t :
  mem_char c t = false → mem_char c (rstrip_ws t) = false.
Proof.
  induction t as [|x t IH]; [done|]. intros H. simpl in H.
  apply orb_false_iff in H as [Hx Ht]. rewrite rstrip_ws_cons.
  specialize (IH Ht). destruct (rstrip_ws t) as [|y r].
  - destruct (isspace x); [done|]. simpl. by rewrite Hx.
  - change (Ascii.eqb x c || mem_char c (String y r) = false).
    by rewrite Hx, IH.
Qed.

(** What [_enter_handler] takes for the command is what stands behind the
    last [>] of the text, stripped. *)
Lemma enter_parse pre typed :
  mem_char ">" typed = false → mem_char (ascii_of_nat 10) typed = false →
  strip_ws (last_of (split ">" (last_of
    (split (ascii_of_nat 10) (strip_ws ((pre +:+ String ">" typed) +:+ nl))))))
  = strip_ws typed.
Proof.
  intros Hgt Hnl.
  rewrite string_app_assoc, string_app_cons. unfold strip_ws at 2.
  rewrite rstrip_ws_app_solid, (rstrip_ws_app_blank typed nl) by done.
  rewrite lstrip_ws_app_solid by done.
  rewrite last_split_app.
  2:{ simpl. by apply mem_char_rstrip_ws. }
  rewrite split_app. unfold last_of at 1.
  rewrite (split_no_sep ">" (rstrip_ws typed))
    by (by apply mem_char_rstrip_ws).
  rewrite last_last. unfold strip_ws. by rewrite rstrip_ws_idemp.
Qed.
End Enter.

(** X17: what is typed behind the last prompt sign is what runs.  When the
    text field shows [pre], a [>] and then [typed], with no [>] and no line
    feed in [typed], pressing Enter has on the session the effect of a
    start-up script with the one line [typed]; the text is left alone when
    [typed] is blank, and otherwise grows by the echo of the stripped
    command and what follows it. *)
Theorem enter_runs_typed (max_depth : nat) (recursion_msg : string)
    (self : App) (pre typed : string) :
  mem_char ">" typed = false →
  mem_char (ascii_of_nat 10) typed = false →
  let text := pre +:+ String ">" typed in
  let r := _enter_handler max_depth recursion_msg self text in
  r.1 = run_script max_depth recursion_msg self [typed]
  ∧ if decide (strip_ws typed = EmptyString) then r.2 = text
    else ∃ tail,
      r.2 = text +:+ " <- Executing: " +:+ strip_ws typed +:+ nl +:+ tail.
Proof.
  intros Hgt Hnl text r. subst r text. unfold _enter_handler.
  rewrite (enter_parse pre typed Hgt Hnl).
  simpl run_script.
  destruct (strip_ws typed) as [|a cmd] eqn:Hcmd.
  - rewrite decide_True by done. done.
  - rewrite decide_False by done.
    pose proof (cmd_exec_outcome max_depth recursion_msg self
                  (split_ws (String a cmd))) as Hout.
    destruct (_cmd_exec max_depth recursion_msg self (split_ws (String a cmd)))
      as [[res|e|] self']; simpl in *; [|done|].
    + split; [done|]. destruct res as [|b res].
      * exists (cur_dir self' +:+ " > "). by rewrite !string_app_assoc.
      * exists (String b res +:+ nl +:+ cur_dir self' +:+ " > ").
        by rewrite !string_app_assoc.
    + split; [done|]. exists EmptyString.
      rewrite !string_app_assoc. do 3 f_equal.
Qed.

Lemma enter_runs_typed_witness :
  let self := init test_members in
  let text := "Hello user!" +:+ nl +:+ String ">" "  mv file4.txt dir1/f " in
  let r := _enter_handler 10 "deep" self text in
  mem_char ">" "  mv file4.txt dir1/f " = false
  ∧ mem_char (ascii_of_nat 10) "  mv file4.txt dir1/f " = false
  ∧ r.1 = run_script 10 "deep" self ["  mv file4.txt dir1/f "].
Proof.
  intros self text r. split; [reflexivity|]. split; [reflexivity|].
  exact (proj1 (enter_runs_typed 10 "deep" self ("Hello user!" +:+ nl)
                  "  mv file4.txt dir1/f " eq_refl eq_refl)).
Defined.

(** X18: pressing Enter again does nothing.  When a press of Enter leaves the
    session running, a second press on the text the first one left changes
    neither the session nor the text: the command does not run twice. *)
Theorem enter_twice (max_depth : nat) (recursion_msg : string)
    (self self' : App) (text out : string) :
  _enter_handler max_depth recursion_msg self text = (Continues self', out) →
  _enter_handler max_depth recursion_msg self' out = (Continues self', out).
Proof.
  intros H.
  assert (Hprompt : ∀ s pre,
    _enter_handler max_depth recursion_msg s (pre +:+ String ">" " ")
    = (Continues s, pre +:+ String ">" " ")).
  { intros s pre. unfold _enter_handler.
    by rewrite (enter_parse pre " " eq_refl eq_refl). }
  unfold _enter_handler in H.
  destruct (strip_ws (last_of (split ">" (last_of
    (split (ascii_of_nat 10) (strip_ws (text +:+ nl))))))) as [|a cmd] eqn:Hcmd.
  - injection H as <- <-. unfold _enter_handler. by rewrite Hcmd.
  - destruct (_cmd_exec max_depth recursion_msg self (split_ws (String a cmd)))
      as [[res|e|] s1]; [|done|done].
    injection H as <- <-.
    set (text2 := match res with EmptyString => _ | _ => _ end).
    replace (text2 +:+ cur_dir s1 +:+ " > ")
      with ((text2 +:+ cur_dir s1 +:+ " ") +:+ String ">" " ").
    + apply Hprompt.
    + rewrite !string_app_assoc. do 2 f_equal.
Qed.

Lemma enter_twice_witness :
  let self := init [("a/b/", true)] in
  let text := "/ > cd a" in
  let self' := mkApp (heap self) "/a" in
  let out := "/ > cd a <- Executing: cd a" +:+ nl +:+ "/a > " in
  _enter_handler 10 "deep" self text = (Continues self', out)
  ∧ _enter_handler 10 "deep" self' out = (Continues self', out).
Proof.
  intros self text self' out.
  assert (H : _enter_handler 10 "deep" self text = (Continues self', out))
    by (vm_compute; reflexivity).
  split; [exact H|]. exact (enter_twice 10 "deep" self self' text out H).
Defined.

(** ** When [mv] changes the state *)

(** X19: [mv] changes the state on two of its ways out only.  When the state
    after [mv] is not the state before, there were two arguments, the source
    resolved and the destination did not, and the answer is that the source
    moved or that the parent of the destination was not found: the usage
    message, a source that is not found, a destination that exists, a source
    parent that is not found and the [KeyError] all leave the state as it
    was. *)
Theorem mv_state_change (self : App) (arg : list string) :
  (_mv_cmd self arg).2 ≠ self →
  ∃ a0 a1 rest, arg = a0 :: a1 :: rest
    ∧ is_Some (_find_node_by_path (heap self) (split "/" (strip "/" a0)))
    ∧ _find_node_by_path (heap self) (split "/" (strip "/" a1)) = None
    ∧ ((_mv_cmd self arg).1 = Return (a0 +:+ " moved to " +:+ a1 +:+ ".")
       ∨ (_mv_cmd self arg).1
         = Return ("Destination parent not found: "
                   +:+ join "/" (but_last (split "/" (strip "/" a1))))).
Proof.
  unfold _mv_cmd. destruct arg as [|a0 [|a1 rest]]; [done|done|].
  destruct (_find_node_by_path (heap self) (split "/" (strip "/" a0)))
    as [s|] eqn:Hs; [|done].
  destruct (_find_node_by_path (heap self) (split "/" (strip "/" a1)))
    as [d|] eqn:Hd; [done|].
  intros Hne. exists a0, a1, rest. split_and!; [done|done|done|].
  repeat case_match; simpl in *; auto; done.
Qed.

Lemma mv_state_change_witness :
  let self := init test_members in
  let arg := ["file4.txt"; "nowhere/file4.txt"] in
  (_mv_cmd self arg).2 ≠ self
  ∧ (_mv_cmd self arg).1 = Return "Destination parent not found: nowhere".
Proof.
  intros self arg.
  assert (H : (_mv_cmd self arg).2 ≠ self) by (vm_compute; discriminate).
  split; [exact H|].
  destruct (mv_state_change self arg H) as (a0 & a1 & rest & Ha & _ & _ & Hr).
  injection Ha as <- <- <-.
  destruct Hr as [Hr|Hr]; [|exact Hr].
  exfalso. vm_compute in Hr. discriminate Hr.
Defined.
